(** * Smart-Video-Editor: caption layout, selection queue, render loop and
      session state of the [App] component, [services/geminiService.ts]
      and [types.ts].

    JavaScript numbers are IEEE-754 binary64 values; they are embedded as
    Rocq's primitive [float], whose operations round to nearest-even exactly
    as the ECMAScript ones do.  Captions are sequences of UTF-16 code units,
    the units [String.prototype.split('')] cuts a string into.  React state
    is one record, each handler a function from state to state. *)

From Stdlib Require Import String ZArith List Bool Lia Floats Uint63.
Import ListNotations.
Set Warnings "-inexact-float".

(** ** Numbers *)

(** The arithmetic [wrapText] uses on widths and vertical positions.  The
    program runs at the instance [binary64]; [integers] is the same code
    read in exact arithmetic. *)
Class Arith (num : Type) := {
  nadd : num -> num -> num;
  nsub : num -> num -> num;
  nmul : num -> num -> num;
  of_length : nat -> num;          (* [lines.length] as a number *)
  ngt : num -> num -> bool;        (* [a > b] *)
}.

Definition float_of_nat (n : nat) : float :=
  PrimFloat.of_uint63 (Uint63.of_Z (Z.of_nat n)).

#[export] Instance binary64 : Arith float := {
  nadd := PrimFloat.add;
  nsub := PrimFloat.sub;
  nmul := PrimFloat.mul;
  of_length := float_of_nat;
  ngt := fun a b => PrimFloat.ltb b a;
}.

#[export] Instance integers : Arith Z := {
  nadd := Z.add;
  nsub := Z.sub;
  nmul := Z.mul;
  of_length := Z.of_nat;
  ngt := Z.gtb;
}.

(** Arithmetic without rounding: the laws of [+], [-] and [n * _] that the
    bottom-up placement of the caption block relies on. *)
Class ExactArith (num : Type) `{Arith num} : Prop := {
  mul_one : forall a, nmul (of_length 1) a = a;
  mul_succ : forall n a,
    nmul (of_length (S (S n))) a = nadd (nmul (of_length (S n)) a) a;
  sub_add_cancel : forall a b, nadd (nsub a b) b = a;
  sub_add_distr : forall a b c, nadd (nsub a (nadd b c)) c = nsub a b;
  add_sub_cancel : forall a b, nsub (nadd a b) b = a;
}.

(** ** Strings *)

(** A UTF-16 code unit and a JavaScript string. *)
Definition char16 := N.
Definition jsstring := list char16.

(** [text.split('')]: one single-unit string per code unit. *)
Definition split_units (text : jsstring) : list jsstring :=
  map (fun c => [c]) text.

(** [s.substring(0, k)] *)
Definition substring0 (k : nat) (s : jsstring) : jsstring := firstn k s.

(** String literals of the source are written here as UTF-8 text and read
    into code units: one unit for a scalar value below U+10000, a surrogate
    pair above. *)
Fixpoint utf16_of_utf8 (bytes : list N) : jsstring :=
  match bytes with
  | [] => []
  | b0 :: rest =>
      if b0 <? 128 then b0 :: utf16_of_utf8 rest
      else if b0 <? 224 then
        match rest with
        | b1 :: rest1 => (b0 mod 32 * 64 + b1 mod 64) :: utf16_of_utf8 rest1
        | _ => []
        end
      else if b0 <? 240 then
        match rest with
        | b1 :: b2 :: rest2 =>
            (b0 mod 16 * 4096 + b1 mod 64 * 64 + b2 mod 64)
              :: utf16_of_utf8 rest2
        | _ => []
        end
      else
        match rest with
        | b1 :: b2 :: b3 :: rest3 =>
            let cp := b0 mod 8 * 262144 + b1 mod 64 * 4096
                      + b2 mod 64 * 64 + b3 mod 64 - 65536 in
            (55296 + cp / 1024) :: (56320 + cp mod 1024)
              :: utf16_of_utf8 rest3
        | _ => []
        end
  end%N.

Definition js (literal : string) : jsstring :=
  utf16_of_utf8 (map Ascii.N_of_ascii (list_ascii_of_string literal)).


(** [a.join(sep)] *)
Fixpoint join (sep : jsstring) (parts : list jsstring) : jsstring :=
  match parts with
  | [] => []
  | [p] => p
  | p :: rest => p ++ sep ++ join sep rest
  end.

(** [s || fallback] on strings: the empty string is falsy. *)
Definition or_else (s fallback : jsstring) : jsstring :=
  match s with [] => fallback | _ :: _ => s end.

(** ** Caption layout: [wrapText] *)

Section Layout.

Context {num : Type} `{Arith num}.

(** The calls a 2D context receives. *)
Inductive DrawCall :=
| DrawImage (w h : num)
| StrokeText (l : jsstring) (x y : num)
| FillText (l : jsstring) (x y : num).

(** The part of [CanvasRenderingContext2D] the program touches:
    [measureText(s).width] under the current font, and the calls drawn so
    far. *)
Record Ctx := mkCtx {
  measureText : jsstring -> num;
  drawn : list DrawCall;
}.

Definition draw (c : DrawCall) (ctx : Ctx) : Ctx :=
  mkCtx (measureText ctx) (drawn ctx ++ [c]).

(** The [for (let n = 0; n < words.length; n++)] loop, from index [n] on
    with [words] the elements not yet visited; the state is [(lines, line)]. *)
Fixpoint wrap_for (ctx : Ctx) (maxWidth : num) (words : list jsstring)
    (n : nat) (lines : list jsstring) (line : jsstring)
    : list jsstring * jsstring :=
  match words with
  | [] => (lines, line)
  | w :: rest =>
      let testLine := line ++ w in
      let testWidth := measureText ctx testLine in
      if ngt testWidth maxWidth && (0 <? n)%nat
      then wrap_for ctx maxWidth rest (S n) (lines ++ [line]) w
      else wrap_for ctx maxWidth rest (S n) lines testLine
  end.

(** [lines] after the final [lines.push(line)]. *)
Definition wrapLines (ctx : Ctx) (text : jsstring) (maxWidth : num)
    : list jsstring :=
  let '(lines, line) := wrap_for ctx maxWidth (split_units text) 0 [] [] in
  lines ++ [line].

(** The [for (const l of lines)] loop: stroke then fill each line at
    [currentY], then step [currentY] down by [lineHeight]. *)
Fixpoint draw_lines (ctx : Ctx) (lines : list jsstring) (x currentY
    lineHeight : num) : Ctx :=
  match lines with
  | [] => ctx
  | l :: rest =>
      let ctx := draw (StrokeText l x currentY) ctx in
      let ctx := draw (FillText l x currentY) ctx in
      draw_lines ctx rest x (nadd currentY lineHeight) lineHeight
  end.

Definition wrapText (ctx : Ctx) (text : jsstring) (x y maxWidth
    lineHeight : num) : Ctx :=
  let lines := wrapLines ctx text maxWidth in
  let totalHeight := nmul (of_length (length lines)) lineHeight in
  let currentY := nadd (nsub y totalHeight) lineHeight in
  draw_lines ctx lines x currentY lineHeight.

(** What a frame shows of the caption: the filled lines with their
    vertical positions, in drawing order. *)
Fixpoint filled (calls : list DrawCall) : list (jsstring * num) :=
  match calls with
  | [] => []
  | FillText l _ y :: rest => (l, y) :: filled rest
  | _ :: rest => filled rest
  end.

Fixpoint stroked (calls : list DrawCall) : list (jsstring * num) :=
  match calls with
  | [] => []
  | StrokeText l _ y :: rest => (l, y) :: stroked rest
  | _ :: rest => stroked rest
  end.

(** The greedy wrap in the words of the specification: a line buffer, one
    unit appended at a time, the line closed when the tentative line is too
    wide and the buffer was non-empty before appending. *)
Definition buffer_nonempty (buffer : jsstring) : bool :=
  match buffer with [] => false | _ :: _ => true end.

Fixpoint greedy_spec (measure : jsstring -> num) (maxWidth : num)
    (units : jsstring) (closed : list jsstring) (buffer : jsstring)
    : list jsstring :=
  match units with
  | [] => closed ++ [buffer]
  | u :: rest =>
      let tentative := buffer ++ [u] in
      if ngt (measure tentative) maxWidth && buffer_nonempty buffer
      then greedy_spec measure maxWidth rest (closed ++ [buffer]) [u]
      else greedy_spec measure maxWidth rest closed tentative
  end.

End Layout.

Arguments DrawCall num : clear implicits.
Arguments Ctx num : clear implicits.

(** ** [types.ts] *)

Record SubtitleSegment := mkSegment {
  id : jsstring;
  startTime : float;
  endTime : float;
  text : jsstring;
  isRedundant : bool;
  confidence : float;
}.

Record File := mkFile {
  file_name : jsstring;
  file_size : float;
  file_type : jsstring;
}.

Record VideoMetadata := mkVideo {
  name : jsstring;
  size : float;
  duration : float;
  url : jsstring;
  file : File;
}.

Inductive AppStatus :=
| IDLE | UPLOADING | ANALYZING | READY | GENERATING | COMPLETED.

(** ** Values thrown or passed to [reject], and promises *)

(** The program rejects with bare strings and catches [Error] objects
    thrown by the host; [err.message] is [undefined] on the former. *)
Inductive JsError :=
| Str (s : jsstring)
| ErrorObject (message : jsstring).

Definition message_or (err : JsError) (fallback : jsstring) : jsstring :=
  match err with
  | Str _ => fallback
  | ErrorObject m => or_else m fallback
  end.

(** What awaiting a promise meets: a value, a rejection, or nothing ever. *)
Inductive Settlement (A : Type) :=
| Fulfilled (a : A)
| Rejected (reason : JsError)
| Pending.
Arguments Fulfilled {A} a.
Arguments Rejected {A} reason.
Arguments Pending {A}.

(** The run of an [async] function body up to its end: it returns, throws,
    or stays suspended on an [await] that is never resumed. *)
Inductive Run (A : Type) :=
| Returns (a : A)
| Throws (e : JsError)
| Hangs.
Arguments Returns {A} a.
Arguments Throws {A} e.
Arguments Hangs {A}.

(** ** The component state of [App] *)

Record AppState := mkApp {
  status : AppStatus;
  video : option VideoMetadata;
  segments : list SubtitleSegment;
  selectedSegments : list SubtitleSegment;
  processingMsg : jsstring;
  error : option jsstring;
  finalVideoUrl : option jsstring;
}.

Definition initialState : AppState :=
  mkApp IDLE None [] [] [] None None.

Definition setStatus (s : AppStatus) (st : AppState) : AppState :=
  mkApp s (video st) (segments st) (selectedSegments st) (processingMsg st)
        (error st) (finalVideoUrl st).
Definition setVideo (v : option VideoMetadata) (st : AppState) : AppState :=
  mkApp (status st) v (segments st) (selectedSegments st) (processingMsg st)
        (error st) (finalVideoUrl st).
Definition setSegments (l : list SubtitleSegment) (st : AppState) : AppState :=
  mkApp (status st) (video st) l (selectedSegments st) (processingMsg st)
        (error st) (finalVideoUrl st).
Definition setSelectedSegments
    (f : list SubtitleSegment -> list SubtitleSegment) (st : AppState)
    : AppState :=
  mkApp (status st) (video st) (segments st) (f (selectedSegments st))
        (processingMsg st) (error st) (finalVideoUrl st).
Definition setProcessingMsg (m : jsstring) (st : AppState) : AppState :=
  mkApp (status st) (video st) (segments st) (selectedSegments st) m
        (error st) (finalVideoUrl st).
Definition setError (e : option jsstring) (st : AppState) : AppState :=
  mkApp (status st) (video st) (segments st) (selectedSegments st)
        (processingMsg st) e (finalVideoUrl st).
Definition setFinalVideoUrl (u : option jsstring) (st : AppState) : AppState :=
  mkApp (status st) (video st) (segments st) (selectedSegments st)
        (processingMsg st) (error st) u.

(** [selectedText], which the effect on [selectedSegments] keeps equal to
    the queued captions joined by newlines. *)
Definition selectedText (st : AppState) : jsstring :=
  join [10%N] (map text (selectedSegments st)).

(** The error banner is rendered under [error &&]: a non-empty message. *)
Definition shownError (st : AppState) : option jsstring :=
  match error st with
  | Some (c :: m) => Some (c :: m)
  | _ => None
  end.

(** The result dialog is rendered under
    [status === AppStatus.COMPLETED && finalVideoUrl]. *)
Definition shownArtifact (st : AppState) : option jsstring :=
  match status st, finalVideoUrl st with
  | COMPLETED, Some (c :: u) => Some (c :: u)
  | _, _ => None
  end.

(** ** The selection queue *)

Definition handleAddSegment (seg : SubtitleSegment) : AppState -> AppState :=
  setSelectedSegments (fun prev => prev ++ [seg]).

(** [prev.filter((_, i) => keep(i))], [i] counted from [from]. *)
Fixpoint filter_index {A : Type} (keep : nat -> bool) (from : nat)
    (l : list A) : list A :=
  match l with
  | [] => []
  | a :: rest =>
      if keep from then a :: filter_index keep (S from) rest
      else filter_index keep (S from) rest
  end.

(** [i !== index]: the button passes the integer position of the row. *)
Definition handleRemoveSegment (index : Z) : AppState -> AppState :=
  setSelectedSegments
    (filter_index (fun i => negb (Z.of_nat i =? index)%Z) 0).

Definition clearQueue : AppState -> AppState :=
  setSelectedSegments (fun _ => []).

(** [removeAt] in the words of the specification: it fails outside
    [0, length). *)
Inductive QueueError := IndexOutOfRange.

Definition removeAt_spec {A : Type} (index : Z) (queue : list A)
    : QueueError + list A :=
  if ((0 <=? index) && (index <? Z.of_nat (length queue)))%Z
  then inr (firstn (Z.to_nat index) queue
            ++ skipn (S (Z.to_nat index)) queue)
  else inl IndexOutOfRange.

(** ** [analyzeVideoWithGemini] and [startAnalysis] *)

(** What the outside world does to one analysis request.  [Responds None]
    is a response whose text [JSON.parse] throws on; [Responds (Some l)] one
    that parses to the records [l]. *)
Inductive AnalysisHost :=
| ReadFails (e : JsError)                 (* [fileToBase64] rejects *)
| RequestFails (e : JsError)              (* [generateContent] rejects *)
| Unanswered                              (* the request is outstanding *)
| Responds (parsed : option (list SubtitleSegment)).

Definition analyzeVideoWithGemini {S : Type} (host : AnalysisHost)
    (onProgress : jsstring -> S -> S) (s : S)
    : S * Settlement (list SubtitleSegment) :=
  let s := onProgress (js "正在转换视频以供分析...") s in
  match host with
  | ReadFails e => (s, Rejected e)
  | _ =>
      let s := onProgress (js "Gemini 正在扫描语义和内容...") s in
      match host with
      | ReadFails e | RequestFails e => (s, Rejected e)
      | Unanswered => (s, Pending)
      | Responds None => (s, Fulfilled [])
      | Responds (Some segments) => (s, Fulfilled segments)
      end
  end.

Definition startAnalysis (host : AnalysisHost) (st : AppState) : AppState :=
  match analyzeVideoWithGemini host setProcessingMsg st with
  | (st, Fulfilled result) => setStatus READY (setSegments result st)
  | (st, Rejected err) =>
      setStatus IDLE (setError (Some (message_or err (js "分析失败"))) st)
  | (st, Pending) => st
  end.

(** [chosen] is [e.target.files?.[0]], [objectUrl] what
    [URL.createObjectURL(file)] returns. *)
Definition handleFileUpload (chosen : option File) (objectUrl : jsstring)
    (host : AnalysisHost) (st : AppState) : AppState :=
  match chosen with
  | None => st
  | Some f =>
      let st := setVideo (Some (mkVideo (file_name f) (file_size f) 0
                                        objectUrl f)) st in
      let st := setStatus ANALYZING st in
      startAnalysis host st
  end.

(** ** The render loop of one segment *)

(** [Math.floor] *)
Definition Math_floor (f : float) : float :=
  match Prim2SF f with
  | S754_finite negative m e =>
      if (0 <=? e)%Z then f
      else
        let q := Z.shiftr (Zpos m) (- e) in
        let exact := (Z.shiftl q (- e) =? Zpos m)%Z in
        if negative
        then PrimFloat.opp
               (PrimFloat.of_uint63
                  (Uint63.of_Z (if exact then q else q + 1)))
        else PrimFloat.of_uint63 (Uint63.of_Z q)
  | _ => f
  end.

(** The real number a finite double stands for, times [2 ^ 1100]: an
    integer, since no double has an exponent below [-1074]. *)
Definition exact_value (f : float) : Z :=
  match Prim2SF f with
  | S754_finite negative m e =>
      ((if negative then Z.neg m else Z.pos m) * 2 ^ (e + 1100))%Z
  | _ => 0%Z
  end.

(** The canvas of one composition run: its size, and the host's text
    metrics as a function of the font size in pixels. *)
Record Canvas := mkCanvas {
  width : float;
  height : float;
  metrics : float -> jsstring -> float;
}.

(** The calls of one [renderFrame] that draws: the video frame, then the
    caption.  The assignments to [fillStyle], [strokeStyle], [lineWidth],
    [textAlign] and [textBaseline] draw nothing and are left out; the one to
    [font] selects the metrics. *)
Definition Frame := list (DrawCall float).

Definition paint (canvas : Canvas) (seg : SubtitleSegment) : Frame :=
  let fontSize := Math_floor (height canvas / 18)%float in
  let ctx := mkCtx (metrics canvas fontSize) [] in
  let ctx := draw (DrawImage (width canvas) (height canvas)) ctx in
  let maxWidth := (width canvas * 0.85)%float in
  let lineHeight := (fontSize * 1.2)%float in
  let bottomY := (height canvas * 0.92)%float in
  drawn (wrapText ctx (text seg) (width canvas / 2)%float bottomY maxWidth
                  lineHeight).

(** What one display refresh observes: [Date.now()] and
    [sourceVideo.paused]. *)
Record Tick := mkTick {
  now : float;
  paused : bool;
}.

Definition durationMs (seg : SubtitleSegment) : float :=
  ((endTime seg - startTime seg) * 1000)%float.

(** [elapsed >= durationMs || sourceVideo.paused] *)
Definition segment_over (seg : SubtitleSegment) (startRenderTime : float)
    (t : Tick) : bool :=
  let elapsed := (now t - startRenderTime)%float in
  (durationMs seg <=? elapsed)%float || paused t.

(** The condition in the words of the specification, without rounding:
    the time elapsed since [startRenderTime] has reached
    [endTime - startTime], in milliseconds. *)
Definition duration_reached (seg : SubtitleSegment) (startRenderTime : float)
    (t : Tick) : Prop :=
  ((exact_value (endTime seg) - exact_value (startTime seg)) * 1000
   <= exact_value (now t) - exact_value startRenderTime)%Z.

(** One call of [renderFrame]: it either pauses the video and resolves the
    loop's promise, or draws and requests the next frame. *)
Inductive FrameStep :=
| StopLoop
| NextFrame (f : Frame).

Definition renderFrame (canvas : Canvas) (seg : SubtitleSegment)
    (startRenderTime : float) (t : Tick) : FrameStep :=
  if segment_over seg startRenderTime t then StopLoop
  else NextFrame (paint canvas seg).

(** The loop over the refreshes the host delivers.  [Scheduled]: every
    refresh so far drew and a callback is still requested; [Resolved]: the
    promise is resolved and no callback is requested any more, so the
    remaining refreshes reach no [renderFrame]. *)
Inductive LoopState :=
| Scheduled (frames : list Frame)
| Resolved (frames : list Frame).

Fixpoint renderLoop (canvas : Canvas) (seg : SubtitleSegment)
    (startRenderTime : float) (ticks : list Tick) (frames : list Frame)
    : LoopState :=
  match ticks with
  | [] => Scheduled frames
  | t :: later =>
      match renderFrame canvas seg startRenderTime t with
      | StopLoop => Resolved frames
      | NextFrame f =>
          renderLoop canvas seg startRenderTime later (frames ++ [f])
      end
  end.

(** ** [composeVideoSegments] *)

Inductive MediaEvent :=
| LoadedMetadata (videoWidth videoHeight : float)
| LoadError
| NoEvent.

(** The refreshes of one segment's playback, with the [Date.now()] read
    before its loop. *)
Record Playback := mkPlayback {
  startRenderTime : float;
  ticks : list Tick;
}.

Record ComposeHost := mkHost {
  contextAvailable : bool;               (* [canvas.getContext] is non-null *)
  mediaEvent : MediaEvent;
  recorderSupported : bool;              (* [new MediaRecorder] accepts the
                                            webm/vp8/opus mime type *)
  textMetrics : float -> jsstring -> float;
  playbacks : list Playback;             (* one per segment, in order *)
  blobUrl : jsstring;                    (* [URL.createObjectURL(blob)] *)
}.

(** The blob [recorder.onstop] resolves with.  Its bytes are the chunks
    the host's recorder delivers from the stream it captures; the program
    never reads them and only hands the blob to [URL.createObjectURL]. *)
Inductive Blob := RecordedBlob.

(** State threaded through the [async] handler of [onloadedmetadata]: the
    component state, the frames painted on the canvas so far, and the
    playbacks still to come. *)
Record Recording := mkRecording {
  app : AppState;
  painted : list Frame;
  clock : list Playback;
}.

(** The body of [for (const seg of segs)].  Assigning a non-finite number
    to [currentTime] throws a [TypeError]. *)
Definition record_segment (canvas : Canvas) (seg : SubtitleSegment)
    (r : Recording) : Recording * Run unit :=
  let msg := js "正在录制片段: " ++ [34%N] ++ substring0 15 (text seg)
             ++ js "..." ++ [34%N] in
  let r := mkRecording (setProcessingMsg msg (app r)) (painted r)
                       (clock r) in
  if negb (PrimFloat.is_finite (startTime seg))
  then (r, Throws (ErrorObject (js "The provided double value is non-finite.")))
  else
    match clock r with
    | [] => (r, Hangs)
    | p :: later =>
        match renderLoop canvas seg (startRenderTime p) (ticks p) [] with
        | Resolved frames =>
            (mkRecording (app r) (painted r ++ frames) later, Returns tt)
        | Scheduled frames =>
            (mkRecording (app r) (painted r ++ frames) later, Hangs)
        end
    end.

Fixpoint record_segments (canvas : Canvas) (segs : list SubtitleSegment)
    (r : Recording) : Recording * Run unit :=
  match segs with
  | [] => (r, Returns tt)
  | seg :: rest =>
      match record_segment canvas seg r with
      | (r, Returns _) => record_segments canvas rest r
      | stopped => stopped
      end
  end.

(** The [async] handler of [onloadedmetadata]: size the canvas, build the
    recorder (the constructor throws [NotSupportedError] on a mime type the
    host cannot record), then record the segments in order. *)
Definition onloadedmetadata (host : ComposeHost) (videoWidth videoHeight
    : float) (segs : list SubtitleSegment) (st : AppState)
    : Recording * Run unit :=
  let canvas := mkCanvas videoWidth videoHeight (textMetrics host) in
  let r := mkRecording st [] (playbacks host) in
  if negb (recorderSupported host)
  then (r, Throws (ErrorObject (js "NotSupportedError")))
  else record_segments canvas segs r.

(** The promise [composeVideoSegments] returns.  It is rejected by the two
    [reject] calls and by an exception in the executor itself, fulfilled by
    [recorder.onstop]; an exception inside the [async] handler rejects only
    that handler's own promise, which nobody awaits. *)
Definition composeVideoSegments (host : ComposeHost)
    (segs : list SubtitleSegment) (st : AppState)
    : AppState * Settlement Blob :=
  match video st with
  | None =>
      (st, Rejected (ErrorObject
                       (js "Cannot read properties of null (reading 'url')")))
  | Some _ =>
      if negb (contextAvailable host)
      then (st, Rejected (Str (js "无法创建 Canvas 上下文")))
      else
        match mediaEvent host with
        | LoadError => (st, Rejected (Str (js "视频加载失败")))
        | NoEvent => (st, Pending)
        | LoadedMetadata w h =>
            match onloadedmetadata host w h segs st with
            | (r, Returns _) => (app r, Fulfilled RecordedBlob)
            | (r, Throws _) => (app r, Pending)
            | (r, Hangs) => (app r, Pending)
            end
        end
  end.

(** ** [handleGenerateFinalVideo] *)

Definition handleGenerateFinalVideo (host : ComposeHost) (st : AppState)
    : AppState :=
  match selectedSegments st with
  | [] => setError (Some (js "请先在右侧列表中点击选择字幕片段")) st
  | _ :: _ =>
      let st := setStatus GENERATING st in
      let st := setProcessingMsg (js "准备合成视频与音频...") st in
      match composeVideoSegments host (selectedSegments st) st with
      | (st, Fulfilled blob) =>
          setStatus COMPLETED (setFinalVideoUrl (Some (blobUrl host)) st)
      | (st, Rejected err) =>
          let st := setError (Some (js "合成视频失败: "
                                    ++ message_or err (js "未知错误"))) st in
          setStatus READY st
      | (st, Pending) => st
      end
  end.

(** The [返回修改] and [✕] buttons. *)
Definition dismissResult : AppState -> AppState := setStatus READY.
Definition dismissError : AppState -> AppState := setError None.

(** ** Vertical placement, as a property of the drawn positions *)

Section Placement.

Context {num : Type} `{Arith num}.

(** [c; c + lineHeight; c + lineHeight + lineHeight; ...], [n] entries. *)
Fixpoint positions_from (currentY lineHeight : num) (n : nat) : list num :=
  match n with
  | O => []
  | S k => currentY :: positions_from (nadd currentY lineHeight) lineHeight k
  end.

(** Each position is [lineHeight] above the one that follows it. *)
Fixpoint stepped (lineHeight : num) (ys : list num) : Prop :=
  match ys with
  | a :: (b :: _) as below =>
      b = nadd a lineHeight /\ a = nsub b lineHeight
      /\ stepped lineHeight below
  | _ => True
  end.

(** The block ends at [y] and grows upward from it. *)
Definition bottom_anchored (y lineHeight : num) (ys : list num) : Prop :=
  (exists above, ys = above ++ [y]) /\ stepped lineHeight ys.

(** The positions at which [wrapText] fills the lines of [text] on a
    context that has drawn nothing yet. *)
Definition captionPositions (measure : jsstring -> num) (text : jsstring)
    (x y maxWidth lineHeight : num) : list num :=
  map snd (filled (drawn (wrapText (mkCtx measure []) text x y maxWidth
                                   lineHeight))).

Definition captionLines (measure : jsstring -> num) (text : jsstring)
    (x y maxWidth lineHeight : num) : list jsstring :=
  map fst (filled (drawn (wrapText (mkCtx measure []) text x y maxWidth
                                   lineHeight))).

End Placement.


(** [st'] differs from [st] at most in the progress message. *)
Definition msg_only (st st' : AppState) : Prop :=
  status st' = status st /\ video st' = video st
  /\ segments st' = segments st
  /\ selectedSegments st' = selectedSegments st
  /\ error st' = error st /\ finalVideoUrl st' = finalVideoUrl st.

(** ** Validation, in the words of the specification *)

(** An entry the specification wants dropped or rejected on receipt. *)
Definition invalid_entry (s : SubtitleSegment) : bool :=
  ((endTime s <=? startTime s) || (startTime s <? 0))%float.

(** ** What the view lets the user do *)

Inductive Event :=
| Upload (f : File) (objectUrl : jsstring) (host : AnalysisHost)
| AnalysisSettles (host : AnalysisHost)
| Add (seg : SubtitleSegment)
| Remove (index : nat)
| Clear
| Generate (host : ComposeHost)
| DismissResult
| DismissError.

(** The conditions under which the JSX renders, and leaves enabled, the
    control of each event. *)
Definition enabled (st : AppState) (e : Event) : Prop :=
  match e with
  | Upload _ _ _ => status st = IDLE
  | AnalysisSettles _ => status st = ANALYZING
  | Add seg =>
      status st <> ANALYZING
      /\ In seg (filter (fun s => negb (isRedundant s)) (segments st))
  | Remove index => index < length (selectedSegments st)
  | Clear => True
  | Generate _ => selectedSegments st <> [] /\ status st <> GENERATING
  | DismissResult => status st = COMPLETED /\ finalVideoUrl st <> None
  | DismissError => error st <> None
  end.

Definition handle (e : Event) (st : AppState) : AppState :=
  match e with
  | Upload f objectUrl host => handleFileUpload (Some f) objectUrl host st
  | AnalysisSettles host => startAnalysis host st
  | Add seg => handleAddSegment seg st
  | Remove index => handleRemoveSegment (Z.of_nat index) st
  | Clear => clearQueue st
  | Generate host => handleGenerateFinalVideo host st
  | DismissResult => dismissResult st
  | DismissError => dismissError st
  end.

(** The states a session passes through.  An upload whose analysis is
    still [Unanswered] leaves the session waiting, and [AnalysisSettles]
    resumes it; a generation runs to the point where it ends or waits for
    good. *)
Inductive reachable : AppState -> Prop :=
| reach_initial : reachable initialState
| reach_step (st : AppState) (e : Event) :
    reachable st -> enabled st e -> reachable (handle e st).

(** ** The lists and labels the view derives *)

(** [segments.filter(s => !s.isRedundant)] and
    [segments.filter(s => s.isRedundant).length] *)
Definition filteredSegments (st : AppState) : list SubtitleSegment :=
  filter (fun s => negb (isRedundant s)) (segments st).

Definition redundantCount (st : AppState) : nat :=
  length (filter (fun s => isRedundant s) (segments st)).

(** The label of the generate button:
    [status === GENERATING ? (processingMsg.length > 10 ? ... : ...) : ...] *)
Definition generateLabel (st : AppState) : jsstring :=
  match status st with
  | GENERATING =>
      if (10 <? length (processingMsg st))%nat
      then js "录制中..." else js "准备中..."
  | _ => js "生成带字幕视频"
  end.

(** ** The payload of a data URL: [base64Video.split(',')[1]] *)

(** [s.split(sep)] for a separator of one unit. *)
Fixpoint split_char (sep : char16) (s : jsstring) : list jsstring :=
  match s with
  | [] => [[]]
  | c :: rest =>
      if (c =? sep)%N then [] :: split_char sep rest
      else
        match split_char sep rest with
        | part :: parts => (c :: part) :: parts
        | [] => [[c]]
        end
  end.

(** [None] is [undefined]. *)
Definition inlineData (base64Video : jsstring) : option jsstring :=
  nth_error (split_char 44%N base64Video) 1.

(** ** Predicates on wrapped lines *)

Section LineShapes.

Context {num : Type} `{Arith num}.

(** A line is one unit or less, or does not measure wider than
    [maxWidth]. *)
Definition fits (measure : jsstring -> num) (maxWidth : num)
    (line : jsstring) : Prop :=
  length line <= 1 \/ ngt (measure line) maxWidth = false.

(** [line] could not take the first unit of [next]. *)
Definition overflows (measure : jsstring -> num) (maxWidth : num)
    (line next : jsstring) : Prop :=
  match next with
  | [] => False
  | u :: _ => ngt (measure (line ++ [u])) maxWidth = true
  end.

End LineShapes.

(** [R] holds between each element and the one after it. *)
Fixpoint adjacent {A : Type} (R : A -> A -> Prop) (l : list A) : Prop :=
  match l with
  | a :: (b :: _) as rest => R a b /\ adjacent R rest
  | _ => True
  end.

(** The two calls that draw one placed line. *)
Definition caption_calls (x : float) (placed : jsstring * float)
    : list (DrawCall float) :=
  [StrokeText (fst placed) x (snd placed);
   FillText (fst placed) x (snd placed)].


(** The message [record_segment] shows for a segment. *)
Definition recordingMsg (seg : SubtitleSegment) : jsstring :=
  js "正在录制片段: " ++ [34%N] ++ substring0 15 (text seg)
  ++ js "..." ++ [34%N].

(** An analysis has succeeded: the result list is on screen. *)
Definition past_analysis (st : AppState) : Prop :=
  status st = READY \/ status st = GENERATING \/ status st = COMPLETED.

(** * Theorems *)

(** ** Caption wrapping *)

Section WrapFacts.

Context {num : Type} `{Arith num}.

Lemma wrap_for_greedy (ctx : Ctx num) (maxWidth : num) (units : jsstring) :
  forall n lines line,
    (0 <? n)%nat = buffer_nonempty line ->
    (let '(ls, l) := wrap_for ctx maxWidth (split_units units) n lines line in
     ls ++ [l])
    = greedy_spec (measureText ctx) maxWidth units lines line.
Proof.
  induction units as [|u rest IH]; intros n lines line Hn; simpl.
  - reflexivity.
  - rewrite Hn.
    destruct (ngt (measureText ctx (line ++ [u])) maxWidth
              && buffer_nonempty line).
    + apply IH. reflexivity.
    + apply IH. simpl. destruct line; reflexivity.
Qed.

Lemma wrapLines_greedy (ctx : Ctx num) (text : jsstring) (maxWidth : num) :
  wrapLines ctx text maxWidth
  = greedy_spec (measureText ctx) maxWidth text [] [].
Proof. unfold wrapLines. apply (wrap_for_greedy ctx maxWidth text 0 [] []). reflexivity. Qed.

Lemma greedy_spec_concat (measure : jsstring -> num) (maxWidth : num)
    (units : jsstring) :
  forall closed buffer,
    concat (greedy_spec measure maxWidth units closed buffer)
    = concat closed ++ buffer ++ units.
Proof.
  induction units as [|u rest IH]; intros closed buffer; simpl.
  - rewrite concat_app. simpl. rewrite !app_nil_r. reflexivity.
  - destruct (ngt (measure (buffer ++ [u])) maxWidth
              && buffer_nonempty buffer); rewrite IH.
    + rewrite concat_app. simpl. rewrite app_nil_r, <- app_assoc. reflexivity.
    + rewrite <- app_assoc. reflexivity.
Qed.

Lemma greedy_spec_nonempty (measure : jsstring -> num) (maxWidth : num)
    (units : jsstring) :
  forall closed buffer,
    Forall (fun l => 1 <= length l) closed ->
    1 <= length (buffer ++ units) ->
    Forall (fun l => 1 <= length l)
           (greedy_spec measure maxWidth units closed buffer).
Proof.
  induction units as [|u rest IH]; intros closed buffer Hc Hb; simpl.
  - rewrite app_nil_r in Hb. apply Forall_app. split; [exact Hc|].
    constructor; [exact Hb | constructor].
  - destruct (ngt (measure (buffer ++ [u])) maxWidth) ; simpl.
    + destruct buffer as [|b buffer']; simpl.
      * apply IH; [exact Hc | simpl; lia].
      * apply IH; [| simpl; lia].
        apply Forall_app. split; [exact Hc|].
        constructor; [simpl; lia | constructor].
    + apply IH; [exact Hc|]. rewrite !length_app. simpl. lia.
Qed.

(** The lines [wrapText] strokes and fills are the array [lines], at the
    positions [currentY], [currentY + lineHeight], ... *)
Lemma draw_lines_filled (lines : list jsstring) (x lineHeight : num) :
  forall ctx currentY,
    filled (drawn (draw_lines ctx lines x currentY lineHeight))
    = filled (drawn ctx)
      ++ combine lines (positions_from currentY lineHeight (length lines)).
Proof.
  assert (Happ : forall a b : list (DrawCall num),
             filled (a ++ b) = filled a ++ filled b).
  { induction a as [|c a IHa]; intros b; simpl; [reflexivity|].
    destruct c; simpl; rewrite IHa; reflexivity. }
  induction lines as [|l rest IH]; intros ctx currentY; simpl.
  - rewrite app_nil_r. reflexivity.
  - rewrite IH. unfold draw. simpl. rewrite !Happ. simpl.
    rewrite app_nil_r, <- app_assoc. reflexivity.
Qed.

Lemma draw_lines_stroked (lines : list jsstring) (x lineHeight : num) :
  forall ctx currentY,
    stroked (drawn (draw_lines ctx lines x currentY lineHeight))
    = stroked (drawn ctx)
      ++ combine lines (positions_from currentY lineHeight (length lines)).
Proof.
  assert (Happ : forall a b : list (DrawCall num),
             stroked (a ++ b) = stroked a ++ stroked b).
  { induction a as [|c a IHa]; intros b; simpl; [reflexivity|].
    destruct c; simpl; rewrite IHa; reflexivity. }
  induction lines as [|l rest IH]; intros ctx currentY; simpl.
  - rewrite app_nil_r. reflexivity.
  - rewrite IH. unfold draw. simpl. rewrite !Happ. simpl.
    rewrite app_nil_r, <- app_assoc. reflexivity.
Qed.

Lemma wrapText_strokes_where_it_fills (ctx : Ctx num) (text : jsstring)
    (x y maxWidth lineHeight : num) :
  drawn ctx = [] ->
  stroked (drawn (wrapText ctx text x y maxWidth lineHeight))
  = filled (drawn (wrapText ctx text x y maxWidth lineHeight)).
Proof.
  intros Hfresh. unfold wrapText.
  rewrite draw_lines_stroked, draw_lines_filled, Hfresh. reflexivity.
Qed.

Lemma combine_fst {A B : Type} (l : list A) :
  forall l' : list B, length l = length l' -> map fst (combine l l') = l.
Proof.
  induction l as [|a l IH]; intros [|b l'] Hlen; simpl in *;
    try reflexivity; try discriminate.
  f_equal. apply IH. lia.
Qed.

Lemma combine_snd {A B : Type} (l : list A) :
  forall l' : list B, length l = length l' -> map snd (combine l l') = l'.
Proof.
  induction l as [|a l IH]; intros [|b l'] Hlen; simpl in *;
    try reflexivity; try discriminate.
  f_equal. apply IH. lia.
Qed.

Lemma positions_from_length (c lineHeight : num) (n : nat) :
  length (positions_from c lineHeight n) = n.
Proof. revert c. induction n; intros c; simpl; [|rewrite IHn]; reflexivity. Qed.

Lemma captionLines_wrapLines (measure : jsstring -> num) (text : jsstring)
    (x y maxWidth lineHeight : num) :
  captionLines measure text x y maxWidth lineHeight
  = wrapLines (mkCtx measure []) text maxWidth.
Proof.
  unfold captionLines, wrapText. rewrite draw_lines_filled. simpl.
  apply combine_fst. rewrite positions_from_length. reflexivity.
Qed.

Lemma captionPositions_from (measure : jsstring -> num) (text : jsstring)
    (x y maxWidth lineHeight : num) :
  let n := length (wrapLines (mkCtx measure []) text maxWidth) in
  captionPositions measure text x y maxWidth lineHeight
  = positions_from (nadd (nsub y (nmul (of_length n) lineHeight)) lineHeight)
                   lineHeight n.
Proof.
  unfold captionPositions, wrapText. rewrite draw_lines_filled. simpl.
  apply combine_snd. rewrite positions_from_length. reflexivity.
Qed.

Lemma wrapLines_length (ctx : Ctx num) (text : jsstring) (maxWidth : num) :
  exists k, length (wrapLines ctx text maxWidth) = S k.
Proof.
  unfold wrapLines.
  destruct (wrap_for ctx maxWidth (split_units text) 0 [] []) as [ls l].
  exists (length ls). rewrite length_app. simpl. lia.
Qed.

End WrapFacts.



(** C2: when [maxWidth] is smaller than the measured width of every single
    unit, no drawn line is empty unless the text is (the empty text gives
    the one empty line), and the drawn lines concatenate to the text. *)
Theorem wrapText_narrow_lines_roundtrip {num : Type} `{Arith num}
    (measure : jsstring -> num) (text : jsstring)
    (x y maxWidth lineHeight : num)
    (Hnarrow : forall c : char16, ngt (measure [c]) maxWidth = true) :
  let lines := captionLines measure text x y maxWidth lineHeight in
  match text with
  | [] => lines = [[]]
  | _ :: _ => Forall (fun l => 1 <= length l) lines
  end
  /\ concat lines = text.
Proof.
  cbv zeta. rewrite captionLines_wrapLines, wrapLines_greedy. simpl. split.
  - destruct text as [|u rest]; [reflexivity|].
    apply greedy_spec_nonempty; [constructor | simpl; lia].
  - apply greedy_spec_concat.
Qed.

Lemma wrapText_narrow_lines_roundtrip_witness :
  let measure := fun s : jsstring => (float_of_nat (length s) * 16)%float in
  let lines := captionLines measure (js "字幕AB") 427%float 441.6%float
                            10%float 31.2%float in
  (Forall (fun l => 1 <= length l) lines)
  /\ concat lines = js "字幕AB".
Proof.
  apply (wrapText_narrow_lines_roundtrip
           (fun s : jsstring => (float_of_nat (length s) * 16)%float)
           (js "字幕AB") 427%float 441.6%float 10%float 31.2%float).
  intros c. vm_compute. reflexivity.
Defined.

(** C10: whatever the text, [maxWidth], [lineHeight] and the measure, the
    drawn lines concatenate to the text; the empty text is drawn as exactly
    one line, the empty string. *)
Theorem wrapText_concat_roundtrip {num : Type} `{Arith num}
    (measure : jsstring -> num) (text : jsstring)
    (x y maxWidth lineHeight : num) :
  concat (captionLines measure text x y maxWidth lineHeight) = text
  /\ captionLines measure [] x y maxWidth lineHeight = [[]].
Proof.
  rewrite !captionLines_wrapLines, !wrapLines_greedy. split.
  - apply greedy_spec_concat.
  - reflexivity.
Qed.

(** ** Vertical placement *)

#[export] Instance integers_exact : ExactArith Z.
Proof.
  constructor; intros; cbn [nadd nsub nmul of_length integers]; lia.
Qed.

Section PlacementFacts.

Context {num : Type} `{ExactArith num}.

Lemma positions_from_stepped (lineHeight : num) (n : nat) :
  forall c, stepped lineHeight (positions_from c lineHeight n).
Proof.
  induction n as [|[|k] IH]; intros c; simpl; try exact I.
  repeat split.
  - symmetry. apply add_sub_cancel.
  - apply (IH (nadd c lineHeight)).
Qed.

Lemma positions_from_last (lineHeight : num) (n : nat) :
  forall y,
    exists above,
      positions_from
        (nadd (nsub y (nmul (of_length (S n)) lineHeight)) lineHeight)
        lineHeight (S n)
      = above ++ [y].
Proof.
  induction n as [|k IH]; intros y.
  - exists []. simpl. rewrite mul_one, sub_add_cancel. reflexivity.
  - rewrite mul_succ, sub_add_distr.
    destruct (IH y) as [above Habove].
    exists (nsub y (nmul (of_length (S k)) lineHeight) :: above).
    change (positions_from ?c lineHeight (S (S k)))
      with (c :: positions_from (nadd c lineHeight) lineHeight (S k)).
    rewrite Habove. reflexivity.
Qed.

End PlacementFacts.

(** C3 (as amended): [wrapText] draws the first line at
    [(y - n * lineHeight) + lineHeight], [n] the number of lines, and each
    next line at the previous position plus [lineHeight], in binary64.  In
    arithmetic without rounding this puts the last line at the bottom anchor
    [y] and every other line [lineHeight] above the line that follows it,
    one position per line, each line stroked where it is filled. *)
Theorem wrapText_bottom_anchored_exact {num : Type} `{ExactArith num}
    (measure : jsstring -> num) (text : jsstring)
    (x y maxWidth lineHeight : num) :
  (forall (measure64 : jsstring -> float) (text64 : jsstring)
          (x64 y64 maxWidth64 lineHeight64 : float),
     let n := length (captionLines measure64 text64 x64 y64 maxWidth64
                                   lineHeight64) in
     captionPositions measure64 text64 x64 y64 maxWidth64 lineHeight64
     = positions_from (y64 - float_of_nat n * lineHeight64 + lineHeight64)%float
                      lineHeight64 n)
  /\ bottom_anchored y lineHeight
       (captionPositions measure text x y maxWidth lineHeight)
  /\ length (captionPositions measure text x y maxWidth lineHeight)
     = length (captionLines measure text x y maxWidth lineHeight)
  /\ stroked (drawn (wrapText (mkCtx measure []) text x y maxWidth
                              lineHeight))
     = filled (drawn (wrapText (mkCtx measure []) text x y maxWidth
                               lineHeight)).
Proof.
  split; [|split; [|split]].
  - intros. subst n. rewrite captionLines_wrapLines.
    exact (captionPositions_from (num := float) measure64 text64 x64 y64
             maxWidth64 lineHeight64).
  - rewrite captionPositions_from.
    destruct (wrapLines_length (mkCtx measure []) text maxWidth) as [k Hk].
    rewrite Hk. split.
    + apply positions_from_last.
    + apply positions_from_stepped.
  - rewrite captionLines_wrapLines, captionPositions_from.
    apply positions_from_length.
  - apply wrapText_strokes_where_it_fills. reflexivity.
Qed.

Lemma wrapText_bottom_anchored_exact_witness :
  let measure := fun s : jsstring => (Z.of_nat (length s) * 16)%Z in
  captionPositions measure (js "ABC") 427%Z 441%Z 20%Z 31%Z
  = [379; 410; 441]%Z
  /\ bottom_anchored 441%Z 31%Z
       (captionPositions measure (js "ABC") 427%Z 441%Z 20%Z 31%Z).
Proof.
  split; [reflexivity|].
  apply (wrapText_bottom_anchored_exact (num := Z)
           (fun s : jsstring => (Z.of_nat (length s) * 16)%Z)
           (js "ABC") 427%Z 441%Z 20%Z 31%Z).
Defined.

(** C3 fails in binary64.  For a video 480 pixels high, [paint] calls
    [wrapText] with [y = 480 * 0.92] and [lineHeight = 26 * 1.2]; a caption
    of three lines then has its last line at 441.59999999999997, one unit in
    the last place above the anchor 441.6.  The second part is the same
    through [paint]: 854 by 480 pixels, sixty units each as wide as the font
    size, wrapped 27, 27 and 6 to a line. *)
Lemma wrapText_last_line_off_anchor_binary64 :
  let measure := fun s : jsstring => (float_of_nat (length s) * 16)%float in
  let y := (480 * 0.92)%float in
  let lineHeight := (26 * 1.2)%float in
  let ys := captionPositions measure (js "ABC") 427%float y 20%float
                             lineHeight in
  let canvas := mkCanvas 854 480
                  (fun fontSize s => float_of_nat (length s) * fontSize)
                  %float in
  let seg := mkSegment (js "1") 0 4 (repeat 23383%N 60) false 1 in
  (length ys = 3
   /\ (last ys nan =? y)%float = false
   /\ ~ bottom_anchored y lineHeight ys)
  /\ (map (fun placed => length (fst placed)) (filled (paint canvas seg))
      = [27; 27; 6]
      /\ (last (map snd (filled (paint canvas seg))) nan =? y)%float = false).
Proof.
  cbv zeta. split; [split; [|split] | split].
  - reflexivity.
  - vm_compute. reflexivity.
  - intros [[above Habove] _].
    apply (f_equal (fun l => last l nan)) in Habove.
    rewrite last_last in Habove.
    vm_compute in Habove. discriminate Habove.
  - vm_compute. reflexivity.
  - vm_compute. reflexivity.
Qed.

(** ** The render loop *)

Lemma renderLoop_frames (canvas : Canvas) (seg : SubtitleSegment)
    (start : float) (before : list Tick) :
  Forall (fun t => segment_over seg start t = false) before ->
  forall (rest : list Tick) (frames : list Frame),
    renderLoop canvas seg start (before ++ rest) frames
    = renderLoop canvas seg start rest
        (frames ++ map (fun _ => paint canvas seg) before).
Proof.
  induction 1 as [|t before Ht _ IH]; intros rest frames; simpl.
  - rewrite app_nil_r. reflexivity.
  - unfold renderFrame. rewrite Ht, IH, <- app_assoc. reflexivity.
Qed.

Lemma segment_over_iff (seg : SubtitleSegment) (start : float) (t : Tick) :
  segment_over seg start t = true
  <-> (((endTime seg - startTime seg) * 1000 <=? now t - start)%float = true
       \/ paused t = true).
Proof. unfold segment_over, durationMs. apply orb_true_iff. Qed.

Lemma segment_over_false_iff (seg : SubtitleSegment) (start : float)
    (t : Tick) :
  segment_over seg start t = false
  <-> (((endTime seg - startTime seg) * 1000 <=? now t - start)%float = false
       /\ paused t = false).
Proof. unfold segment_over, durationMs. apply orb_false_iff. Qed.

(** C4 (as amended): the render loop of a segment stops at the first
    display refresh at which [Date.now() - startRenderTime >=
    (endTime - startTime) * 1000], both sides as binary64 computes them, or
    the video is paused.  Every refresh before it draws one frame; that
    refresh and all later ones draw none, and the pipeline goes on to the
    next segment with exactly the frames drawn before it. *)
Theorem renderLoop_stops_at_first_over (canvas : Canvas)
    (seg : SubtitleSegment) (p : Playback) (before after : list Tick)
    (t : Tick) (later : list Playback) (r : Recording)
    (Hfinite : PrimFloat.is_finite (startTime seg) = true)
    (Hclock : clock r = p :: later)
    (Hticks : ticks p = before ++ t :: after)
    (Hbefore : Forall (fun t0 =>
       ((endTime seg - startTime seg) * 1000
          <=? now t0 - startRenderTime p)%float = false
       /\ paused t0 = false) before)
    (Hover : ((endTime seg - startTime seg) * 1000
                <=? now t - startRenderTime p)%float = true
             \/ paused t = true) :
  let frames := map (fun _ => paint canvas seg) before in
  renderLoop canvas seg (startRenderTime p) (ticks p) [] = Resolved frames
  /\ renderLoop canvas seg (startRenderTime p) before [] = Scheduled frames
  /\ renderFrame canvas seg (startRenderTime p) t = StopLoop
  /\ (let '(r', run) := record_segment canvas seg r in
      run = Returns tt /\ painted r' = painted r ++ frames
      /\ clock r' = later).
Proof.
  assert (Hb : Forall (fun t0 => segment_over seg (startRenderTime p) t0
                                 = false) before).
  { eapply Forall_impl; [|exact Hbefore].
    intros t0 Ht0. apply segment_over_false_iff. exact Ht0. }
  apply segment_over_iff in Hover.
  assert (Hloop : renderLoop canvas seg (startRenderTime p) (ticks p) []
                  = Resolved (map (fun _ => paint canvas seg) before)).
  { rewrite Hticks, (renderLoop_frames _ _ _ _ Hb). simpl.
    unfold renderFrame. rewrite Hover. reflexivity. }
  cbv zeta. repeat split.
  - exact Hloop.
  - rewrite <- (app_nil_r before) at 1.
    rewrite (renderLoop_frames _ _ _ _ Hb). reflexivity.
  - unfold renderFrame. rewrite Hover. reflexivity.
  - unfold record_segment. rewrite Hfinite. cbn [negb clock].
    rewrite Hclock, Hloop. cbn [painted clock]. repeat split.
Qed.

Lemma renderLoop_stops_at_first_over_witness :
  let seg := mkSegment (js "1") 5 7 (js "字幕") false 0.9 in
  let canvas := mkCanvas 854 480 (fun fs s => float_of_nat (length s) * fs)
                         %float in
  let before := [mkTick 1016 false; mkTick 1033 false] in
  let p := mkPlayback 1000 (before ++ mkTick 3001 false
                                   :: [mkTick 3017 false]) in
  let r := mkRecording initialState [] [p] in
  let frames := [paint canvas seg; paint canvas seg] in
  renderLoop canvas seg 1000 (ticks p) [] = Resolved frames
  /\ renderLoop canvas seg 1000 before [] = Scheduled frames
  /\ renderFrame canvas seg 1000 (mkTick 3001 false) = StopLoop
  /\ (let '(r', run) := record_segment canvas seg r in
      run = Returns tt /\ painted r' = painted r ++ frames
      /\ clock r' = []).
Proof.
  intros seg canvas before p r frames.
  apply (renderLoop_stops_at_first_over canvas seg p before
           [mkTick 3017 false] (mkTick 3001 false) [] r).
  - vm_compute. reflexivity.
  - reflexivity.
  - reflexivity.
  - constructor; [vm_compute; split; reflexivity|].
    constructor; [vm_compute; split; reflexivity|]. constructor.
  - left. vm_compute. reflexivity.
Defined.

(** C4 fails as stated: for the segment from 12.9 s to 29 s the duration
    is a little under 16100 ms, but binary64 rounds [29 - 12.9] up and
    [durationMs] comes out above 16100.  At the refresh 16100 ms after the
    start the elapsed time has reached the duration, the video plays on,
    and [renderFrame] still draws a frame; the loop stops one refresh
    later. *)
Lemma renderLoop_paints_after_duration_reached :
  let seg := mkSegment (js "1") 12.9 29 (js "A") false 1 in
  let canvas := mkCanvas 854 480 (fun fs s => float_of_nat (length s) * fs)
                         %float in
  let start := 1700000000000%float in
  let t := mkTick 1700000016100 false in
  duration_reached seg start t
  /\ (16100 <? durationMs seg)%float = true
  /\ renderFrame canvas seg start t = NextFrame (paint canvas seg)
  /\ renderLoop canvas seg start [t; mkTick 1700000016117 false] []
     = Resolved [paint canvas seg].
Proof.
  cbv zeta. split; [|split; [|split]].
  - unfold duration_reached. apply Z.leb_le. vm_compute. reflexivity.
  - vm_compute. reflexivity.
  - vm_compute. reflexivity.
  - vm_compute. reflexivity.
Qed.

(** ** The selection queue *)

Lemma filter_index_keep_all {A : Type} (keep : nat -> bool) (l : list A) :
  forall from,
    (forall i, from <= i < from + length l -> keep i = true) ->
    filter_index keep from l = l.
Proof.
  induction l as [|a l IH]; intros from Hkeep; simpl; [reflexivity|].
  rewrite (Hkeep from) by (simpl; lia).
  f_equal. apply IH. intros i Hi. apply Hkeep. simpl. lia.
Qed.

Lemma filter_index_drop_one {A : Type} (keep : nat -> bool) (l : list A) :
  forall from k,
    k < length l ->
    (forall i, keep i = negb (i =? from + k)) ->
    filter_index keep from l = firstn k l ++ skipn (S k) l.
Proof.
  induction l as [|a l IH]; intros from k Hk Hkeep; simpl in Hk; [lia|].
  destruct k as [|k]; simpl.
  - rewrite Hkeep, Nat.add_0_r, Nat.eqb_refl. simpl.
    apply filter_index_keep_all. intros i Hi. rewrite Hkeep.
    destruct (Nat.eqb_spec i (from + 0)); [lia | reflexivity].
  - rewrite Hkeep.
    destruct (Nat.eqb_spec from (from + S k)) as [E|_]; [lia|]. simpl.
    f_equal. apply IH; [lia|]. intros i. rewrite Hkeep. f_equal. f_equal. lia.
Qed.

(** C5 (as amended): [handleRemoveSegment] never fails and reports no
    error.  For an index in [0, length) it leaves the queue [removeAt]
    describes, that element removed and the others in their order; for any
    other index it leaves the queue as it was.  Nothing else in the state
    changes. *)
Theorem handleRemoveSegment_filters (index : Z) (st : AppState) :
  let queue := selectedSegments st in
  let st' := handleRemoveSegment index st in
  match removeAt_spec index queue with
  | inr shorter => selectedSegments st' = shorter
  | inl IndexOutOfRange => st' = st
  end
  /\ error st' = error st
  /\ status st' = status st
  /\ segments st' = segments st.
Proof.
  cbv zeta. split; [|repeat split].
  unfold removeAt_spec, handleRemoveSegment, setSelectedSegments.
  destruct ((0 <=? index)%Z && (index <? Z.of_nat (length (selectedSegments st)))%Z)
    eqn:Hrange; cbn [selectedSegments].
  - apply andb_true_iff in Hrange. destruct Hrange as [H0 H1].
    apply Z.leb_le in H0. apply Z.ltb_lt in H1.
    apply filter_index_drop_one; [lia|].
    intros i. f_equal. simpl.
    destruct (Nat.eqb_spec i (Z.to_nat index));
      destruct (Z.eqb_spec (Z.of_nat i) index); try reflexivity; lia.
  - rewrite filter_index_keep_all; [destruct st; reflexivity|].
    intros i Hi. apply negb_true_iff, Z.eqb_neq. intros E. subst index.
    apply andb_false_iff in Hrange.
    destruct Hrange as [H0|H1];
      [apply Z.leb_gt in H0 | apply Z.ltb_ge in H1]; lia.
Qed.

(** C5 fails as stated: removing at position 5 of a queue of one segment,
    and at position 0 of the empty queue, is a failure for [removeAt]; the
    handler ends normally, the queue as it was and no error recorded. *)
Lemma handleRemoveSegment_out_of_range_no_error :
  let seg := mkSegment (js "1") 0 2 (js "A") false 1 in
  let st := handleAddSegment seg initialState in
  removeAt_spec 5 (selectedSegments st) = inl IndexOutOfRange
  /\ handleRemoveSegment 5 st = st
  /\ error (handleRemoveSegment 5 st) = None
  /\ removeAt_spec 0 (selectedSegments initialState) = inl IndexOutOfRange
  /\ handleRemoveSegment 0 initialState = initialState
  /\ removeAt_spec 5 (selectedSegments st)
     <> inr (selectedSegments (handleRemoveSegment 5 st)).
Proof.
  cbv zeta. repeat split; try reflexivity. discriminate.
Qed.

(** ** Receipt of the analysis result *)

(** C6 (as amended): the analysis result is stored as received.  A
    response that parses makes its records the segment set, none dropped
    and none rejected; a response that does not parse makes the segment set
    empty; either way the session becomes Ready. *)
Theorem startAnalysis_stores_result_unchanged
    (parsed : option (list SubtitleSegment)) (st : AppState) :
  segments (startAnalysis (Responds parsed) st)
  = match parsed with Some l => l | None => [] end
  /\ status (startAnalysis (Responds parsed) st) = READY
  /\ error (startAnalysis (Responds parsed) st) = error st.
Proof. destruct parsed; repeat split. Qed.

(** C6 fails as stated: an entry that ends before it starts, and one that
    starts before 0, are both in the segment set after the analysis. *)
Lemma startAnalysis_stores_invalid_entries :
  let backwards := mkSegment (js "1") 5 2 (js "A") false 1 in
  let negative := mkSegment (js "2") (-3) 1 (js "B") false 1 in
  let f := mkFile (js "a.mp4") 1000 (js "video/mp4") in
  let st := handleFileUpload (Some f) (js "blob:1")
              (Responds (Some [backwards; negative])) initialState in
  invalid_entry backwards = true
  /\ invalid_entry negative = true
  /\ segments st = [backwards; negative]
  /\ status st = READY
  /\ error st = None.
Proof. cbv zeta. repeat split. Qed.

(** ** Composition *)

Lemma msg_only_refl (st : AppState) : msg_only st st.
Proof. repeat split. Qed.

Lemma record_segment_msg_only (canvas : Canvas) (seg : SubtitleSegment)
    (r : Recording) (st : AppState) :
  msg_only st (app r) ->
  msg_only st (app (fst (record_segment canvas seg r))).
Proof.
  intros Hr. unfold record_segment.
  destruct (negb (PrimFloat.is_finite (startTime seg))); [exact Hr|].
  cbn [clock]. destruct (clock r) as [|p later]; [exact Hr|].
  destruct (renderLoop _ _ _ _ _); exact Hr.
Qed.

Lemma record_segments_msg_only (canvas : Canvas)
    (segs : list SubtitleSegment) (st : AppState) :
  forall r,
    msg_only st (app r) ->
    msg_only st (app (fst (record_segments canvas segs r))).
Proof.
  induction segs as [|seg rest IH]; intros r Hr; simpl; [exact Hr|].
  pose proof (record_segment_msg_only canvas seg r st Hr) as Hstep.
  destruct (record_segment canvas seg r) as [r' [[]|e|]]; simpl in Hstep |- *.
  - apply IH. exact Hstep.
  - exact Hstep.
  - exact Hstep.
Qed.

Lemma composeVideoSegments_msg_only (host : ComposeHost)
    (segs : list SubtitleSegment) (st : AppState) :
  msg_only st (fst (composeVideoSegments host segs st)).
Proof.
  unfold composeVideoSegments.
  destruct (video st); [|apply msg_only_refl].
  destruct (negb (contextAvailable host)); [apply msg_only_refl|].
  destruct (mediaEvent host) as [w h| |]; try apply msg_only_refl.
  unfold onloadedmetadata.
  destruct (negb (recorderSupported host)); [apply msg_only_refl|].
  pose proof (record_segments_msg_only (mkCanvas w h (textMetrics host)) segs
                st (mkRecording st [] (playbacks host)) (msg_only_refl st))
    as Hrec.
  destruct (record_segments _ _ _) as [r [[]|e|]]; exact Hrec.
Qed.

(** What [handleGenerateFinalVideo] leaves, by the way the promise of
    [composeVideoSegments] settles. *)
Lemma handleGenerateFinalVideo_cases (host : ComposeHost) (st : AppState) :
  selectedSegments st <> [] ->
  let st1 := setProcessingMsg (js "准备合成视频与音频...")
               (setStatus GENERATING st) in
  let st' := handleGenerateFinalVideo host st in
  selectedSegments st' = selectedSegments st
  /\ segments st' = segments st
  /\ match snd (composeVideoSegments host (selectedSegments st) st1) with
     | Fulfilled _ =>
         status st' = COMPLETED /\ finalVideoUrl st' = Some (blobUrl host)
         /\ error st' = error st
     | Rejected err =>
         status st' = READY /\ finalVideoUrl st' = finalVideoUrl st
         /\ error st' = Some (js "合成视频失败: "
                              ++ message_or err (js "未知错误"))
     | Pending =>
         status st' = GENERATING /\ finalVideoUrl st' = finalVideoUrl st
         /\ error st' = error st
     end.
Proof.
  intros Hne. cbv zeta. unfold handleGenerateFinalVideo.
  destruct (selectedSegments st) as [|s q] eqn:Hq; [congruence|].
  set (st1 := setProcessingMsg _ (setStatus GENERATING st)).
  assert (Hq1 : selectedSegments st1 = s :: q) by exact Hq.
  rewrite Hq1.
  pose proof (composeVideoSegments_msg_only host (s :: q) st1) as Hm.
  destruct (composeVideoSegments host (s :: q) st1) as [st2 [blob|err|]];
    destruct Hm as [Hs [Hv [Hg [Hsel [He Hf]]]]]; simpl in *;
    repeat split; congruence.
Qed.

(** ** The session *)

Lemma handleGenerateFinalVideo_status (host : ComposeHost) (st : AppState) :
  selectedSegments st <> [] ->
  status (handleGenerateFinalVideo host st) = COMPLETED
  \/ status (handleGenerateFinalVideo host st) = READY
  \/ status (handleGenerateFinalVideo host st) = GENERATING.
Proof.
  intros Hne.
  destruct (handleGenerateFinalVideo_cases host st Hne) as [_ [_ Hcase]].
  destruct (snd (composeVideoSegments _ _ _)); tauto.
Qed.

(** Before an analysis has succeeded there is nothing to discard. *)
Lemma reachable_empty_before_ready (st : AppState) :
  reachable st ->
  status st = IDLE \/ status st = ANALYZING ->
  segments st = [] /\ selectedSegments st = [] /\ finalVideoUrl st = None.
Proof.
  induction 1 as [|st e Hreach IH Hen]; intros Hst.
  - repeat split.
  - destruct e; simpl in Hen, Hst |- *.
    + specialize (IH (or_introl Hen)). destruct IH as [Hs [Hq Hf]].
      destruct host as [e|e| |[l|]]; simpl in Hst |- *;
        try (repeat split; assumption);
        destruct Hst; discriminate.
    + specialize (IH (or_intror Hen)). destruct IH as [Hs [Hq Hf]].
      destruct host as [e|e| |[l|]]; simpl in Hst |- *;
        try (repeat split; assumption);
        destruct Hst; discriminate.
    + destruct Hen as [_ Hin].
      destruct (IH Hst) as [Hs _]. rewrite Hs in Hin. destruct Hin.
    + destruct (IH Hst) as [Hs [Hq Hf]]. rewrite Hq. repeat split; assumption.
    + destruct (IH Hst) as [Hs [Hq Hf]]. repeat split; assumption.
    + destruct Hen as [Hne _].
      destruct (handleGenerateFinalVideo_status host st Hne) as [E|[E|E]];
        rewrite E in Hst; destruct Hst; discriminate.
    + destruct Hst; discriminate.
    + apply IH. exact Hst.
Qed.

(** C7 (as amended): the view offers the upload only in Idle, and in every
    Idle state a session reaches the segments, the queue and the artifact
    are empty; the upload then moves the state to Analyzing.  The handler
    itself discards nothing, in any state: it replaces the video, leaves
    the queue and the artifact URL as they were, and the segments are
    replaced only when the analysis succeeds. *)
Theorem handleFileUpload_discards_nothing (f : File) (objectUrl : jsstring)
    (host : AnalysisHost) (st : AppState)
    (Hreach : reachable st)
    (Hoffered : enabled st (Upload f objectUrl host)) :
  (segments st = [] /\ selectedSegments st = [] /\ finalVideoUrl st = None)
  /\ status (handleFileUpload (Some f) objectUrl Unanswered st) = ANALYZING
  /\ forall any : AppState,
       let st' := handleFileUpload (Some f) objectUrl host any in
       selectedSegments st' = selectedSegments any
       /\ finalVideoUrl st' = finalVideoUrl any
       /\ video st' = Some (mkVideo (file_name f) (file_size f) 0 objectUrl f)
       /\ match host with
          | Unanswered =>
              status st' = ANALYZING /\ segments st' = segments any
          | Responds parsed =>
              status st' = READY
              /\ segments st' = match parsed with Some l => l | None => [] end
          | ReadFails _ | RequestFails _ =>
              status st' = IDLE /\ segments st' = segments any
          end.
Proof.
  split; [|split].
  - apply reachable_empty_before_ready; [exact Hreach | left; exact Hoffered].
  - reflexivity.
  - intros any. destruct host as [e|e| |[l|]]; repeat split.
Qed.

Lemma handleFileUpload_discards_nothing_witness :
  let f := mkFile (js "a.mp4") 1000 (js "video/mp4") in
  status (handleFileUpload (Some f) (js "blob:1") Unanswered initialState)
  = ANALYZING
  /\ segments initialState = [].
Proof.
  intros f.
  destruct (handleFileUpload_discards_nothing f (js "blob:1") Unanswered
              initialState reach_initial eq_refl) as [[Hs _] [Hst _]].
  split; [exact Hst | exact Hs].
Defined.

(** C7 fails as stated: the handler run in a Completed session leaves the
    old segments, the queue and the artifact URL in place while the new
    analysis is outstanding, and the queue and the URL after it. *)
Lemma handleFileUpload_keeps_prior_state :
  let seg := mkSegment (js "1") 0 2 (js "A") false 1 in
  let old := mkFile (js "a.mp4") 1000 (js "video/mp4") in
  let st := mkApp COMPLETED
              (Some (mkVideo (js "a.mp4") 1000 0 (js "blob:1") old))
              [seg] [seg] [] None (Some (js "blob:2")) in
  let f := mkFile (js "b.mp4") 2000 (js "video/mp4") in
  let during := handleFileUpload (Some f) (js "blob:3") Unanswered st in
  let after := handleFileUpload (Some f) (js "blob:3") (Responds (Some []))
                                st in
  status during = ANALYZING
  /\ segments during = [seg]
  /\ selectedSegments during = [seg]
  /\ finalVideoUrl during = Some (js "blob:2")
  /\ status after = READY
  /\ selectedSegments after = [seg]
  /\ finalVideoUrl after = Some (js "blob:2").
Proof. cbv zeta. repeat split. Qed.

(** C8: in Ready with an empty queue, a request to generate leaves the
    session Ready, the queue empty and the segments, video and artifact as
    they were, and puts a message on the error banner. *)
Theorem generate_with_empty_queue_rejected (host : ComposeHost)
    (st : AppState)
    (Hready : status st = READY)
    (Hempty : selectedSegments st = []) :
  let st' := handleGenerateFinalVideo host st in
  status st' = READY
  /\ selectedSegments st' = []
  /\ segments st' = segments st
  /\ video st' = video st
  /\ finalVideoUrl st' = finalVideoUrl st
  /\ processingMsg st' = processingMsg st
  /\ error st' = Some (js "请先在右侧列表中点击选择字幕片段")
  /\ shownError st' = Some (js "请先在右侧列表中点击选择字幕片段").
Proof.
  cbv zeta. unfold handleGenerateFinalVideo. rewrite Hempty.
  split; [exact Hready|]. split; [exact Hempty|].
  do 5 (split; [reflexivity|]).
  unfold shownError, setError. cbn [error]. vm_compute. reflexivity.
Qed.

Lemma generate_with_empty_queue_rejected_witness :
  let seg := mkSegment (js "1") 0 2 (js "A") false 1 in
  let f := mkFile (js "a.mp4") 1000 (js "video/mp4") in
  let st := handleFileUpload (Some f) (js "blob:1") (Responds (Some [seg]))
                             initialState in
  let host := mkHost true (LoadedMetadata 854 480) true
                     (fun fs s => float_of_nat (length s) * fs)%float []
                     (js "blob:2") in
  status (handleGenerateFinalVideo host st) = READY
  /\ segments (handleGenerateFinalVideo host st) = [seg]
  /\ shownError (handleGenerateFinalVideo host st) <> None.
Proof.
  intros seg f st host.
  destruct (generate_with_empty_queue_rejected host st eq_refl eq_refl)
    as [Hs [_ [Hseg [_ [_ [_ [_ Hshown]]]]]]].
  split; [exact Hs|]. split; [exact Hseg|].
  rewrite Hshown. discriminate.
Defined.

(** When the promise is rejected (no 2D context, the video fails to load)
    the session is back in Ready with an error, the queue untouched and
    no artifact shown. *)
Lemma composition_rejected_returns_ready (host : ComposeHost)
    (st : AppState) :
  selectedSegments st <> [] ->
  video st <> None ->
  contextAvailable host = false \/ mediaEvent host = LoadError ->
  let st' := handleGenerateFinalVideo host st in
  status st' = READY
  /\ selectedSegments st' = selectedSegments st
  /\ shownArtifact st' = None
  /\ error st' = Some (js "合成视频失败: 未知错误").
Proof.
  intros Hne Hv Hfail. cbv zeta.
  destruct (handleGenerateFinalVideo_cases host st Hne) as [Hq [_ Hcase]].
  assert (Hrej : exists m,
            snd (composeVideoSegments host (selectedSegments st)
                   (setProcessingMsg (js "准备合成视频与音频...")
                      (setStatus GENERATING st)))
            = Rejected (Str m)).
  { unfold composeVideoSegments. cbn [video setProcessingMsg setStatus].
    destruct (video st); [|congruence].
    destruct (contextAvailable host) eqn:Hc; simpl.
    - destruct Hfail as [Hf|Hf]; [discriminate|]. rewrite Hf. eexists. reflexivity.
    - eexists. reflexivity. }
  destruct Hrej as [m Hrej]. rewrite Hrej in Hcase.
  destruct Hcase as [Hs [_ He]].
  unfold shownArtifact. rewrite Hs. repeat split; assumption.
Qed.

(** An exception inside the [async] handler settles nothing: the session
    stays in Generating and no error is recorded. *)
Lemma composition_exception_unreported (host : ComposeHost) (st : AppState)
    (w h : float) (e : JsError) :
  selectedSegments st <> [] ->
  video st <> None ->
  contextAvailable host = true ->
  mediaEvent host = LoadedMetadata w h ->
  snd (onloadedmetadata host w h (selectedSegments st)
         (setProcessingMsg (js "准备合成视频与音频...")
            (setStatus GENERATING st))) = Throws e ->
  status (handleGenerateFinalVideo host st) = GENERATING
  /\ error (handleGenerateFinalVideo host st) = error st.
Proof.
  intros Hne Hv Hc Hm Hthrow.
  destruct (handleGenerateFinalVideo_cases host st Hne) as [_ [_ Hcase]].
  assert (Hpend : snd (composeVideoSegments host (selectedSegments st)
                   (setProcessingMsg (js "准备合成视频与音频...")
                      (setStatus GENERATING st))) = Pending).
  { unfold composeVideoSegments. cbn [video setProcessingMsg setStatus].
    destruct (video st); [|congruence].
    rewrite Hc, Hm. simpl negb. cbv iota.
    destruct (onloadedmetadata _ _ _ _ _) as [r [[]|e'|]];
      simpl in Hthrow |- *; try reflexivity; discriminate. }
  rewrite Hpend in Hcase. destruct Hcase as [Hs [_ He]]. split; assumption.
Qed.

(** C9 fails on the code: a queued segment whose [startTime] is not finite
    (as [JSON.parse] reads [1e999]) makes the assignment to [currentTime]
    throw inside the handler of [onloadedmetadata]; so does a host without
    the webm recorder.  In both runs the session stays in Generating with
    no error, where the claim has it back in Ready with one. *)
Lemma composition_exception_leaves_generating :
  let f := mkFile (js "a.mp4") 1000 (js "video/mp4") in
  let metrics := fun fs s => (float_of_nat (length s) * fs)%float in
  let p := mkPlayback 1000 [mkTick 1016 false; mkTick 3001 false] in
  let unbounded := mkSegment (js "1") infinity infinity (js "A") false 1 in
  let st := handleAddSegment unbounded
              (handleFileUpload (Some f) (js "blob:1")
                 (Responds (Some [unbounded])) initialState) in
  let host := mkHost true (LoadedMetadata 854 480) true metrics [p]
                     (js "blob:2") in
  let fine := mkSegment (js "2") 0 2 (js "B") false 1 in
  let st2 := handleAddSegment fine
               (handleFileUpload (Some f) (js "blob:1")
                  (Responds (Some [fine])) initialState) in
  let norecorder := mkHost true (LoadedMetadata 854 480) false metrics [p]
                           (js "blob:2") in
  (status st = READY
   /\ status (handleGenerateFinalVideo host st) = GENERATING
   /\ error (handleGenerateFinalVideo host st) = None)
  /\ (status st2 = READY
      /\ status (handleGenerateFinalVideo norecorder st2) = GENERATING
      /\ error (handleGenerateFinalVideo norecorder st2) = None
      /\ status (handleGenerateFinalVideo host st2) = COMPLETED).
Proof. cbv zeta. repeat split; vm_compute; reflexivity. Qed.

(** * Further properties *)

(** ** Shape of the wrapped lines *)

Section WrapShape.

Context {num : Type} `{Arith num}.

Lemma greedy_spec_fits (measure : jsstring -> num) (maxWidth : num)
    (units : jsstring) :
  forall closed buffer,
    Forall (fits measure maxWidth) closed ->
    fits measure maxWidth buffer ->
    Forall (fits measure maxWidth)
           (greedy_spec measure maxWidth units closed buffer).
Proof.
  induction units as [|u rest IH]; intros closed buffer Hc Hb; simpl.
  - apply Forall_app. split; [exact Hc | constructor; [exact Hb | constructor]].
  - destruct (ngt (measure (buffer ++ [u])) maxWidth) eqn:Hwide; simpl.
    + destruct buffer as [|b buffer']; simpl.
      * apply IH; [exact Hc | left; simpl; lia].
      * apply IH; [|left; simpl; lia].
        apply Forall_app. split; [exact Hc|].
        constructor; [exact Hb | constructor].
    + apply IH; [exact Hc | right; exact Hwide].
Qed.

Lemma adjacent_snoc {A : Type} (R : A -> A -> Prop) (a b : A) :
  forall l, adjacent R (l ++ [a]) -> R a b -> adjacent R (l ++ [a; b]).
Proof.
  induction l as [|c l IH]; intros Hadj Hab.
  - simpl. split; [exact Hab | exact I].
  - destruct l as [|d l]; simpl in *.
    + destruct Hadj as [Hca _]. repeat split; assumption.
    + destruct Hadj as [Hcd Hrest]. split; [exact Hcd|].
      apply IH; assumption.
Qed.

Lemma adjacent_replace_last {A : Type} (R : A -> A -> Prop) (a a' : A) :
  (forall z, R z a -> R z a') ->
  forall l, adjacent R (l ++ [a]) -> adjacent R (l ++ [a']).
Proof.
  intros Hmono. induction l as [|c l IH]; intros Hadj.
  - exact I.
  - destruct l as [|d l]; simpl in *.
    + destruct Hadj as [Hca _]. split; [apply Hmono; exact Hca | exact I].
    + destruct Hadj as [Hcd Hrest]. split; [exact Hcd|].
      apply IH. exact Hrest.
Qed.

Lemma greedy_spec_overflows (measure : jsstring -> num) (maxWidth : num)
    (units : jsstring) :
  forall closed buffer,
    adjacent (overflows measure maxWidth) (closed ++ [buffer]) ->
    (closed <> [] -> buffer <> []) ->
    adjacent (overflows measure maxWidth)
             (greedy_spec measure maxWidth units closed buffer).
Proof.
  induction units as [|u rest IH]; intros closed buffer Hadj Hne; simpl.
  - exact Hadj.
  - destruct (ngt (measure (buffer ++ [u])) maxWidth) eqn:Hwide; simpl.
    + destruct buffer as [|b buffer']; simpl.
      * destruct closed as [|c closed']; [|exfalso; apply Hne; congruence].
        apply IH; [exact I | intros _; discriminate].
      * apply IH; [|intros _; discriminate].
        rewrite <- app_assoc. simpl.
        apply adjacent_snoc; [exact Hadj | exact Hwide].
    + apply IH.
      * destruct buffer as [|b buffer'].
        -- destruct closed as [|c closed']; [exact I|].
           exfalso. apply Hne; congruence.
        -- revert Hadj. apply adjacent_replace_last.
           intros z Hz. exact Hz.
      * intros _. destruct buffer; discriminate.
Qed.

Lemma greedy_spec_count (measure : jsstring -> num) (maxWidth : num)
    (units : jsstring) :
  forall closed buffer,
    length (greedy_spec measure maxWidth units closed buffer)
    <= length closed + 1
       + (if buffer_nonempty buffer then length units
          else Nat.pred (length units)).
Proof.
  induction units as [|u rest IH]; intros closed buffer; simpl.
  - rewrite length_app. simpl. destruct (buffer_nonempty buffer); lia.
  - destruct (ngt (measure (buffer ++ [u])) maxWidth);
      destruct buffer as [|b buffer']; simpl.
    + exact (IH closed [u]).
    + eapply Nat.le_trans; [exact (IH (closed ++ [b :: buffer']) [u])|].
      rewrite length_app. simpl. lia.
    + exact (IH closed [u]).
    + eapply Nat.le_trans; [exact (IH closed (b :: buffer' ++ [u]))|].
      simpl. lia.
Qed.

Lemma greedy_spec_one_line (measure : jsstring -> num) (maxWidth : num)
    (units : jsstring) :
  forall closed buffer,
    (forall k, ngt (measure (buffer ++ firstn k units)) maxWidth = false) ->
    greedy_spec measure maxWidth units closed buffer
    = closed ++ [buffer ++ units].
Proof.
  induction units as [|u rest IH]; intros closed buffer Hfit; simpl.
  - rewrite app_nil_r. reflexivity.
  - pose proof (Hfit 1) as H1. simpl in H1. rewrite H1. simpl.
    rewrite IH.
    + rewrite <- app_assoc. reflexivity.
    + intros k. rewrite <- app_assoc. apply (Hfit (S k)).
Qed.

Lemma greedy_spec_unit_lines (measure : jsstring -> num) (maxWidth : num)
    (units : jsstring) :
  (forall s : jsstring, 2 <= length s -> ngt (measure s) maxWidth = true) ->
  forall closed u0,
    greedy_spec measure maxWidth units closed [u0]
    = closed ++ split_units (u0 :: units).
Proof.
  intros Hwide. induction units as [|u rest IH]; intros closed u0; simpl.
  - reflexivity.
  - rewrite Hwide by (simpl; lia). simpl.
    rewrite IH, <- app_assoc. reflexivity.
Qed.

End WrapShape.

(** X1: no line [wrapText] draws measures wider than [maxWidth], unless it
    is a single unit. *)
Theorem wrapText_lines_fit {num : Type} `{Arith num}
    (measure : jsstring -> num) (text : jsstring)
    (x y maxWidth lineHeight : num) :
  Forall (fits measure maxWidth)
         (captionLines measure text x y maxWidth lineHeight).
Proof.
  rewrite captionLines_wrapLines, wrapLines_greedy.
  apply greedy_spec_fits; [constructor | left; simpl; lia].
Qed.

(** X2: every line break is forced: a line followed by another could not
    have taken the first unit of that next line without measuring wider
    than [maxWidth]; in particular no line after the first is empty. *)
Theorem wrapText_breaks_are_forced {num : Type} `{Arith num}
    (measure : jsstring -> num) (text : jsstring)
    (x y maxWidth lineHeight : num) :
  adjacent (overflows measure maxWidth)
           (captionLines measure text x y maxWidth lineHeight).
Proof.
  rewrite captionLines_wrapLines, wrapLines_greedy.
  apply greedy_spec_overflows; [exact I | intros Hne; congruence].
Qed.

(** X3: [wrapText] draws at least one line and at most one line per unit
    of the text. *)
Theorem wrapText_line_count {num : Type} `{Arith num}
    (measure : jsstring -> num) (text : jsstring)
    (x y maxWidth lineHeight : num) :
  1 <= length (captionLines measure text x y maxWidth lineHeight)
  /\ length (captionLines measure text x y maxWidth lineHeight)
     <= Nat.max 1 (length text).
Proof.
  rewrite captionLines_wrapLines. split.
  - destruct (wrapLines_length (mkCtx measure []) text maxWidth) as [k Hk].
    rewrite Hk. lia.
  - rewrite wrapLines_greedy.
    eapply Nat.le_trans; [apply greedy_spec_count|].
    simpl. destruct text; simpl; lia.
Qed.

(** X4: a text none of whose prefixes measures wider than [maxWidth] is
    drawn as one line, the text itself. *)
Theorem wrapText_single_line_when_fits {num : Type} `{Arith num}
    (measure : jsstring -> num) (text : jsstring)
    (x y maxWidth lineHeight : num)
    (Hfits : forall k, ngt (measure (firstn k text)) maxWidth = false) :
  captionLines measure text x y maxWidth lineHeight = [text].
Proof.
  rewrite captionLines_wrapLines, wrapLines_greedy.
  apply (greedy_spec_one_line measure maxWidth text [] []). exact Hfits.
Qed.

Lemma wrapText_single_line_when_fits_witness :
  captionLines (fun s : jsstring => (Z.of_nat (length s) * 16)%Z)
               (js "ABC") 427%Z 441%Z 100%Z 31%Z
  = [js "ABC"].
Proof.
  apply (wrapText_single_line_when_fits
           (fun s : jsstring => (Z.of_nat (length s) * 16)%Z)
           (js "ABC") 427%Z 441%Z 100%Z 31%Z).
  intros k. do 4 (destruct k as [|k]; [reflexivity|]). reflexivity.
Defined.

(** X5: when every string of two or more units measures wider than
    [maxWidth], each unit of the text is drawn on a line of its own. *)
Theorem wrapText_one_unit_per_line {num : Type} `{Arith num}
    (measure : jsstring -> num) (text : jsstring)
    (x y maxWidth lineHeight : num)
    (Hwide : forall s : jsstring,
               2 <= length s -> ngt (measure s) maxWidth = true) :
  captionLines measure text x y maxWidth lineHeight
  = match text with
    | [] => [[]]
    | _ :: _ => split_units text
    end.
Proof.
  rewrite captionLines_wrapLines, wrapLines_greedy.
  destruct text as [|u0 rest]; [reflexivity|].
  simpl greedy_spec. rewrite andb_false_r.
  apply (greedy_spec_unit_lines measure maxWidth rest Hwide [] u0).
Qed.

Lemma wrapText_one_unit_per_line_witness :
  captionLines (fun s : jsstring => (Z.of_nat (length s) * 16)%Z)
               (js "ABC") 427%Z 441%Z 20%Z 31%Z
  = [js "A"; js "B"; js "C"].
Proof.
  apply (wrapText_one_unit_per_line
           (fun s : jsstring => (Z.of_nat (length s) * 16)%Z)
           (js "ABC") 427%Z 441%Z 20%Z 31%Z).
  intros s Hs. apply Z.gtb_lt. lia.
Defined.

(** ** The painted frame *)

Lemma draw_lines_calls (lines : list jsstring) (x lineHeight : float) :
  forall (ctx : Ctx float) (currentY : float),
    drawn (draw_lines ctx lines x currentY lineHeight)
    = drawn ctx
      ++ flat_map (caption_calls x)
           (combine lines
              (positions_from currentY lineHeight (length lines))).
Proof.
  induction lines as [|l rest IH]; intros ctx currentY; simpl.
  - rewrite app_nil_r. reflexivity.
  - rewrite IH. unfold draw, caption_calls. simpl.
    rewrite <- !app_assoc. reflexivity.
Qed.

(** X6: every frame [renderFrame] draws is the video image at the canvas
    size followed, line by line, by a stroke and then a fill of the same
    text at the same place, centred at half the canvas width; there is at
    least one line and the lines concatenate to the caption of the
    segment. *)
Theorem paint_draws_image_then_caption (canvas : Canvas)
    (seg : SubtitleSegment) :
  exists placed : list (jsstring * float),
    paint canvas seg
    = DrawImage (width canvas) (height canvas)
      :: flat_map (caption_calls (width canvas / 2)%float) placed
    /\ placed <> []
    /\ concat (map fst placed) = text seg
    /\ filled (paint canvas seg) = placed.
Proof.
  unfold paint, wrapText.
  set (fontSize := Math_floor (height canvas / 18)%float).
  set (ctx := draw (DrawImage (width canvas) (height canvas))
                   (mkCtx (metrics canvas fontSize) [])).
  set (lines := wrapLines ctx (text seg) (width canvas * 0.85)%float).
  set (lineHeight := (fontSize * 1.2)%float).
  set (bottomY := (height canvas * 0.92)%float).
  set (placed :=
         combine lines
           (positions_from
              (bottomY - float_of_nat (length lines) * lineHeight
               + lineHeight)%float
              lineHeight (length lines))).
  exists placed.
  assert (Hfst : map fst placed = lines).
  { apply combine_fst. rewrite positions_from_length. reflexivity. }
  split; [|split; [|split]].
  - rewrite draw_lines_calls. reflexivity.
  - destruct (wrapLines_length ctx (text seg) (width canvas * 0.85)%float)
      as [k Hk].
    assert (Hl : length lines = S k) by exact Hk.
    intros Hnil. rewrite <- Hfst, Hnil in Hl. discriminate Hl.
  - rewrite Hfst. unfold lines. rewrite wrapLines_greedy.
    apply greedy_spec_concat.
  - rewrite draw_lines_filled. reflexivity.
Qed.

(** ** The queue and what the view derives from it *)

Lemma filter_index_app {A : Type} (keep : nat -> bool) (l l' : list A) :
  forall from,
    filter_index keep from (l ++ l')
    = filter_index keep from l ++ filter_index keep (from + length l) l'.
Proof.
  induction l as [|a l IH]; intros from; simpl.
  - rewrite Nat.add_0_r. reflexivity.
  - rewrite IH. replace (S from + length l) with (from + S (length l)) by lia.
    destruct (keep from); reflexivity.
Qed.

Lemma filter_index_incl {A : Type} (keep : nat -> bool) (P : A -> Prop)
    (l : list A) :
  forall from, Forall P l -> Forall P (filter_index keep from l).
Proof.
  induction l as [|a l IH]; intros from Hl; simpl; [constructor|].
  inversion Hl as [|? ? Ha Hrest]; subst.
  destruct (keep from); [constructor; [exact Ha|]|]; apply IH; exact Hrest.
Qed.

(** X7: removing at the position at which a segment was just appended
    gives back the state before the append, whatever the queue held (the
    same segment may be queued more than once). *)
Theorem remove_last_undoes_add (seg : SubtitleSegment) (st : AppState) :
  handleRemoveSegment (Z.of_nat (length (selectedSegments st)))
                      (handleAddSegment seg st)
  = st.
Proof.
  unfold handleRemoveSegment, handleAddSegment, setSelectedSegments.
  cbn [status video segments selectedSegments processingMsg error
       finalVideoUrl].
  rewrite filter_index_app. simpl.
  rewrite Z.eqb_refl. simpl. rewrite app_nil_r.
  rewrite filter_index_keep_all; [destruct st; reflexivity|].
  intros i Hi. apply negb_true_iff, Z.eqb_neq. lia.
Qed.

(** X8: removing at any position other than the one the new segment takes
    commutes with appending it: the appended segment stays last. *)
Theorem remove_commutes_with_add (index : Z) (seg : SubtitleSegment)
    (st : AppState)
    (Hother : index <> Z.of_nat (length (selectedSegments st))) :
  handleRemoveSegment index (handleAddSegment seg st)
  = handleAddSegment seg (handleRemoveSegment index st).
Proof.
  unfold handleRemoveSegment, handleAddSegment, setSelectedSegments.
  cbn [status video segments selectedSegments processingMsg error
       finalVideoUrl].
  rewrite filter_index_app. simpl.
  destruct (Z.eqb_spec (Z.of_nat (length (selectedSegments st))) index)
    as [E|_]; [congruence|].
  reflexivity.
Qed.

Lemma remove_commutes_with_add_witness :
  let a := mkSegment (js "1") 0 2 (js "A") false 1 in
  let b := mkSegment (js "2") 5 7 (js "B") false 1 in
  let c := mkSegment (js "3") 8 9 (js "C") false 1 in
  let st := handleAddSegment b (handleAddSegment a initialState) in
  selectedSegments (handleRemoveSegment 0 (handleAddSegment c st)) = [b; c].
Proof.
  intros a b c st.
  rewrite (remove_commutes_with_add 0 c st); [reflexivity|].
  simpl. lia.
Defined.

Lemma join_snoc (sep : jsstring) (p : jsstring) :
  forall parts,
    join sep (parts ++ [p])
    = match parts with
      | [] => p
      | _ :: _ => join sep parts ++ sep ++ p
      end.
Proof.
  induction parts as [|q parts IH]; [reflexivity|].
  destruct parts as [|r parts].
  - reflexivity.
  - change (join sep ((q :: r :: parts) ++ [p]))
      with (q ++ sep ++ join sep ((r :: parts) ++ [p])).
    rewrite IH.
    change (join sep (q :: r :: parts))
      with (q ++ sep ++ join sep (r :: parts)).
    rewrite <- !app_assoc. reflexivity.
Qed.

(** X9: the selected text follows the queue: appending a segment appends
    its caption, after a newline unless the queue was empty; clearing the
    queue empties the text. *)
Theorem selectedText_after_add (seg : SubtitleSegment) (st : AppState) :
  selectedText (handleAddSegment seg st)
  = match selectedSegments st with
    | [] => text seg
    | _ :: _ => selectedText st ++ [10%N] ++ text seg
    end
  /\ selectedText (clearQueue st) = [].
Proof.
  split; [|reflexivity].
  unfold selectedText, handleAddSegment, setSelectedSegments.
  cbn [selectedSegments]. rewrite map_app. simpl map at 2.
  rewrite join_snoc. destruct (selectedSegments st); reflexivity.
Qed.

(** X10: the two numbers in the header of the result list add up: every
    segment is either among the selectable ones or counted as redundant,
    and no selectable one is redundant. *)
Theorem filtered_and_redundant_partition (st : AppState) :
  length (filteredSegments st) + redundantCount st = length (segments st)
  /\ Forall (fun s => isRedundant s = false /\ In s (segments st))
            (filteredSegments st).
Proof.
  unfold filteredSegments, redundantCount. split.
  - induction (segments st) as [|s l IH]; [reflexivity|].
    simpl. destruct (isRedundant s); simpl; lia.
  - apply Forall_forall. intros s Hs. apply filter_In in Hs.
    destruct Hs as [Hin Hkeep]. split; [|exact Hin].
    destruct (isRedundant s); [discriminate | reflexivity].
Qed.

(** ** Invariants of the session *)

Lemma handleGenerateFinalVideo_keeps (host : ComposeHost) (st : AppState) :
  selectedSegments (handleGenerateFinalVideo host st) = selectedSegments st
  /\ segments (handleGenerateFinalVideo host st) = segments st
  /\ video (handleGenerateFinalVideo host st) = video st.
Proof.
  unfold handleGenerateFinalVideo.
  destruct (selectedSegments st) as [|s q] eqn:Hq.
  - rewrite <- Hq. repeat split.
  - set (st1 := setProcessingMsg _ (setStatus GENERATING st)).
    assert (Hq1 : selectedSegments st1 = s :: q) by exact Hq.
    rewrite Hq1.
    pose proof (composeVideoSegments_msg_only host (s :: q) st1) as Hm.
    destruct (composeVideoSegments host (s :: q) st1) as [st2 [blob|err|]];
      destruct Hm as [Hs [Hv [Hg [Hsel [He Hf]]]]]; simpl in *;
      repeat split; congruence.
Qed.

Lemma startAnalysis_keeps (host : AnalysisHost) (st : AppState) :
  selectedSegments (startAnalysis host st) = selectedSegments st
  /\ video (startAnalysis host st) = video st
  /\ finalVideoUrl (startAnalysis host st) = finalVideoUrl st.
Proof. destruct host as [e|e| |[l|]]; repeat split. Qed.

(** X11: in every state a session reaches, each queued segment is one of
    the received segments and is not redundant: a redundant segment is
    never selected. *)
Theorem queued_segments_are_selectable (st : AppState)
    (Hreach : reachable st) :
  Forall (fun s => In s (segments st) /\ isRedundant s = false)
         (selectedSegments st).
Proof.
  induction Hreach as [|st e Hreach IH Hen]; [constructor|].
  destruct e; simpl handle; simpl in Hen.
  - destruct (reachable_empty_before_ready st Hreach (or_introl Hen))
      as [_ [Hq _]].
    unfold handleFileUpload.
    destruct (startAnalysis_keeps host
                (setStatus ANALYZING
                   (setVideo (Some (mkVideo (file_name f) (file_size f) 0
                                            objectUrl f)) st))) as [Hk _].
    rewrite Hk. cbn [selectedSegments setStatus setVideo]. rewrite Hq.
    constructor.
  - destruct (reachable_empty_before_ready st Hreach (or_intror Hen))
      as [_ [Hq _]].
    destruct (startAnalysis_keeps host st) as [Hk _].
    rewrite Hk, Hq. constructor.
  - destruct Hen as [_ Hin]. apply filter_In in Hin.
    destruct Hin as [Hin Hkeep].
    unfold handleAddSegment, setSelectedSegments.
    cbn [selectedSegments segments].
    apply Forall_app. split; [exact IH|].
    constructor; [|constructor]. split; [exact Hin|].
    destruct (isRedundant seg); [discriminate | reflexivity].
  - unfold handleRemoveSegment, setSelectedSegments.
    cbn [selectedSegments segments].
    apply filter_index_incl. exact IH.
  - constructor.
  - destruct (handleGenerateFinalVideo_keeps host st) as [Hq [Hs _]].
    rewrite Hq, Hs. exact IH.
  - exact IH.
  - exact IH.
Qed.

Lemma queued_segments_are_selectable_witness :
  let a := mkSegment (js "1") 0 2 (js "A") false 1 in
  let filler := mkSegment (js "2") 2 3 (js "B") true 1 in
  let f := mkFile (js "a.mp4") 1000 (js "video/mp4") in
  let st := handle (Add a)
              (handle (Upload f (js "blob:1") (Responds (Some [a; filler])))
                      initialState) in
  selectedSegments st = [a]
  /\ Forall (fun s => In s (segments st) /\ isRedundant s = false)
            (selectedSegments st).
Proof.
  intros a filler f st. split; [reflexivity|].
  apply (queued_segments_are_selectable st).
  apply reach_step.
  - apply reach_step; [apply reach_initial | reflexivity].
  - split; [discriminate | left; reflexivity].
Defined.

(** X12: once an analysis has succeeded, no event the view offers takes
    the session back to Idle or Analyzing, so the upload control is never
    offered again: a session edits one video. *)
Theorem no_way_back_to_upload (st : AppState) (e : Event)
    (Hpast : past_analysis st)
    (Hen : enabled st e) :
  past_analysis (handle e st)
  /\ forall f objectUrl host,
       ~ enabled (handle e st) (Upload f objectUrl host).
Proof.
  assert (Hgoal : past_analysis (handle e st)).
  { unfold past_analysis in *.
    destruct e; simpl handle; simpl in Hen.
    - rewrite Hen in Hpast. destruct Hpast as [H|[H|H]]; discriminate.
    - rewrite Hen in Hpast. destruct Hpast as [H|[H|H]]; discriminate.
    - exact Hpast.
    - exact Hpast.
    - exact Hpast.
    - destruct Hen as [Hne _].
      destruct (handleGenerateFinalVideo_status host st Hne) as [E|[E|E]];
        rewrite E; tauto.
    - left. reflexivity.
    - exact Hpast. }
  split; [exact Hgoal|].
  intros f objectUrl host Hup. simpl in Hup. unfold past_analysis in Hgoal.
  rewrite Hup in Hgoal. destruct Hgoal as [H|[H|H]]; discriminate.
Qed.

Lemma no_way_back_to_upload_witness :
  let a := mkSegment (js "1") 0 2 (js "A") false 1 in
  let f := mkFile (js "a.mp4") 1000 (js "video/mp4") in
  let st := handle (Upload f (js "blob:1") (Responds (Some [a])))
                   initialState in
  past_analysis (handle (Add a) st)
  /\ ~ enabled (handle (Add a) st) (Upload f (js "blob:2") Unanswered).
Proof.
  intros a f st.
  destruct (no_way_back_to_upload st (Add a)) as [Hp Hno].
  - left. reflexivity.
  - split; [discriminate | left; reflexivity].
  - split; [exact Hp | apply Hno].
Defined.

(** X13: the status [UPLOADING] of the enumeration is never taken. *)
Theorem status_never_uploading (st : AppState) (Hreach : reachable st) :
  status st <> UPLOADING.
Proof.
  induction Hreach as [|st e Hreach IH Hen]; [discriminate|].
  destruct e; simpl handle; simpl in Hen.
  - destruct host as [e|e| |[l|]]; discriminate.
  - destruct host as [e|e| |[l|]]; simpl; try discriminate.
    rewrite Hen. discriminate.
  - exact IH.
  - exact IH.
  - exact IH.
  - destruct (selectedSegments st) as [|s q] eqn:Hq; [destruct Hen; congruence|].
    assert (Hne : selectedSegments st <> []) by congruence.
    destruct (handleGenerateFinalVideo_status host st Hne) as [E|[E|E]];
      rewrite E; discriminate.
  - discriminate.
  - exact IH.
Qed.

Lemma status_never_uploading_witness :
  let f := mkFile (js "a.mp4") 1000 (js "video/mp4") in
  status (handle (Upload f (js "blob:1") Unanswered) initialState)
  <> UPLOADING.
Proof.
  intros f.
  apply (status_never_uploading
           (handle (Upload f (js "blob:1") Unanswered) initialState)).
  apply reach_step; [apply reach_initial | reflexivity].
Defined.

(** X14: the non-null assertion [video!] holds whenever generation can be
    requested: in every reachable state that is not Idle, and in every one
    with a non-empty queue, a video is set. *)
Theorem video_set_when_generating (st : AppState) (Hreach : reachable st)
    (Hused : status st <> IDLE \/ selectedSegments st <> []) :
  video st <> None.
Proof.
  assert (Hinv : status st <> IDLE -> video st <> None).
  { clear Hused. induction Hreach as [|st e Hreach IH Hen].
    - intros Hs. exfalso. apply Hs. reflexivity.
    - destruct e; simpl handle; simpl in Hen; intros Hs.
      + unfold handleFileUpload.
        destruct (startAnalysis_keeps host
                    (setStatus ANALYZING
                       (setVideo (Some (mkVideo (file_name f) (file_size f)
                                                0 objectUrl f)) st)))
          as [_ [Hv _]].
        rewrite Hv. discriminate.
      + destruct (startAnalysis_keeps host st) as [_ [Hv _]]. rewrite Hv.
        apply IH. rewrite Hen. discriminate.
      + apply IH. exact Hs.
      + apply IH. exact Hs.
      + apply IH. exact Hs.
      + destruct (handleGenerateFinalVideo_keeps host st) as [_ [_ Hv]].
        rewrite Hv. apply IH. intros Hidle.
        destruct (reachable_empty_before_ready st Hreach (or_introl Hidle))
          as [_ [Hq _]].
        destruct Hen as [Hne _]. contradiction.
      + apply IH. destruct Hen as [Hc _]. rewrite Hc. discriminate.
      + apply IH. exact Hs. }
  destruct Hused as [Hs|Hq]; [exact (Hinv Hs)|].
  apply Hinv. intros Hidle.
  destruct (reachable_empty_before_ready st Hreach (or_introl Hidle))
    as [_ [Hq0 _]].
  contradiction.
Qed.

Lemma video_set_when_generating_witness :
  let f := mkFile (js "a.mp4") 1000 (js "video/mp4") in
  video (handle (Upload f (js "blob:1") Unanswered) initialState) <> None.
Proof.
  intros f.
  apply (video_set_when_generating
           (handle (Upload f (js "blob:1") Unanswered) initialState)).
  - apply reach_step; [apply reach_initial | reflexivity].
  - left. discriminate.
Defined.

(** ** The error banner *)

Lemma or_else_nonempty (m fallback : jsstring) :
  fallback <> [] -> or_else m fallback <> [].
Proof. intros Hf. destruct m; [exact Hf | discriminate]. Qed.

Lemma message_or_nonempty (err : JsError) (fallback : jsstring) :
  fallback <> [] -> message_or err fallback <> [].
Proof.
  intros Hf. destruct err as [s|m]; [exact Hf | apply or_else_nonempty, Hf].
Qed.

Lemma shownError_set (m : jsstring) (st : AppState) :
  m <> [] -> shownError (setError (Some m) st) = Some m.
Proof. intros Hm. destruct m; [congruence | reflexivity]. Qed.

Lemma shownError_same (st st' : AppState) :
  error st' = error st -> shownError st' = shownError st.
Proof. unfold shownError. intros E. rewrite E. reflexivity. Qed.

Lemma analysis_fallback_nonempty : js "分析失败" <> [].
Proof. vm_compute. discriminate. Qed.

Lemma compose_prefix_nonempty (m : jsstring) : js "合成视频失败: " ++ m <> [].
Proof.
  assert (H : exists c rest, js "合成视频失败: " = c :: rest)
    by (vm_compute; eauto).
  destruct H as [c [rest E]]. rewrite E. discriminate.
Qed.

Lemma startAnalysis_error (host : AnalysisHost) (st : AppState) :
  error (startAnalysis host st) = error st
  \/ exists m, m <> [] /\ error (startAnalysis host st) = Some m.
Proof.
  destruct host as [e|e| |[l|]]; try (left; reflexivity);
    right; exists (message_or e (js "分析失败"));
    (split; [apply message_or_nonempty, analysis_fallback_nonempty
            | reflexivity]).
Qed.

Lemma shownError_of_error (st : AppState) (m : jsstring) :
  m <> [] -> error st = Some m -> shownError st = Some m.
Proof.
  intros Hm E. unfold shownError. rewrite E. destruct m; [congruence|].
  reflexivity.
Qed.

(** X15: an error stays on the banner until it is dismissed.  After a
    handler that succeeds or changes nothing the banner shows the very
    message it showed; after one that fails it shows that failure's own
    message: the message of the rejected analysis or its fallback, the
    select-first notice of a generation with an empty queue, or the
    composition message with its cause.  Only the dismiss button leaves it
    empty. *)
Theorem error_stays_until_dismissed (e : Event) (st : AppState)
    (Hnot : e <> DismissError)
    (Hshown : shownError st <> None) :
  shownError (handle e st) <> None
  /\ shownError (handle e st)
     = match e with
       | Upload _ _ (ReadFails err) | Upload _ _ (RequestFails err)
       | AnalysisSettles (ReadFails err)
       | AnalysisSettles (RequestFails err) =>
           Some (message_or err (js "分析失败"))
       | Generate host =>
           match selectedSegments st with
           | [] => Some (js "请先在右侧列表中点击选择字幕片段")
           | _ :: _ =>
               match snd (composeVideoSegments host (selectedSegments st)
                            (setProcessingMsg (js "准备合成视频与音频...")
                               (setStatus GENERATING st))) with
               | Rejected err =>
                   Some (js "合成视频失败: "
                         ++ message_or err (js "未知错误"))
               | _ => shownError st
               end
           end
       | DismissError => None
       | _ => shownError st
       end.
Proof.
  assert (Heq : shownError (handle e st)
     = match e with
       | Upload _ _ (ReadFails err) | Upload _ _ (RequestFails err)
       | AnalysisSettles (ReadFails err)
       | AnalysisSettles (RequestFails err) =>
           Some (message_or err (js "分析失败"))
       | Generate host =>
           match selectedSegments st with
           | [] => Some (js "请先在右侧列表中点击选择字幕片段")
           | _ :: _ =>
               match snd (composeVideoSegments host (selectedSegments st)
                            (setProcessingMsg (js "准备合成视频与音频...")
                               (setStatus GENERATING st))) with
               | Rejected err =>
                   Some (js "合成视频失败: "
                         ++ message_or err (js "未知错误"))
               | _ => shownError st
               end
           end
       | DismissError => None
       | _ => shownError st
       end).
  { destruct e; simpl handle; try reflexivity.
    - destruct host as [err|err| |[l|]]; try reflexivity;
        apply shownError_of_error; try reflexivity;
        apply message_or_nonempty, analysis_fallback_nonempty.
    - destruct host as [err|err| |[l|]]; try reflexivity;
        apply shownError_of_error; try reflexivity;
        apply message_or_nonempty, analysis_fallback_nonempty.
    - destruct (selectedSegments st) as [|s q] eqn:Hq.
      + unfold handleGenerateFinalVideo. rewrite Hq.
        apply shownError_set. vm_compute. discriminate.
      + assert (Hne : selectedSegments st <> []) by congruence.
        destruct (handleGenerateFinalVideo_cases host st Hne)
          as [_ [_ Hcase]].
        rewrite Hq in Hcase.
        destruct (snd (composeVideoSegments _ _ _)) as [blob|err|].
        * apply shownError_same. tauto.
        * destruct Hcase as [_ [_ E]].
          apply (shownError_of_error _ _ (compose_prefix_nonempty _) E).
        * apply shownError_same. tauto. }
  split; [|exact Heq].
  rewrite Heq.
  destruct e as [f u [err|err| |p]|[err|err| |p]|seg|index| |host| |];
    try exact Hshown; try discriminate; try congruence.
  destruct (selectedSegments st); [discriminate|].
  destruct (snd (composeVideoSegments _ _ _)); try exact Hshown.
  discriminate.
Qed.

Lemma error_stays_until_dismissed_witness :
  let a := mkSegment (js "1") 0 2 (js "A") false 1 in
  let f := mkFile (js "a.mp4") 1000 (js "video/mp4") in
  let failed := handle (Upload f (js "blob:1")
                               (RequestFails (ErrorObject (js "503"))))
                       initialState in
  let retried := handle (Upload f (js "blob:2") (Responds (Some [a])))
                        failed in
  status retried = READY /\ shownError retried = Some (js "503").
Proof.
  intros a f failed retried. split; [reflexivity|].
  destruct (error_stays_until_dismissed
              (Upload f (js "blob:2") (Responds (Some [a]))) failed)
    as [_ Heq].
  - discriminate.
  - vm_compute. discriminate.
  - eapply eq_trans; [exact Heq | vm_compute; reflexivity].
Defined.

(** X16: when the file cannot be read or the request fails, the session is
    back in Idle with the failure on the banner - the message of the error,
    or the fallback text when it has none - the new video is kept, nothing
    else changes, and the upload is offered again. *)
Theorem failed_analysis_returns_to_idle (f : File) (objectUrl : jsstring)
    (err : JsError) (st : AppState) :
  let outcome := fun host => handleFileUpload (Some f) objectUrl host st in
  forall host, host = ReadFails err \/ host = RequestFails err ->
    status (outcome host) = IDLE
    /\ shownError (outcome host) = Some (message_or err (js "分析失败"))
    /\ video (outcome host)
       = Some (mkVideo (file_name f) (file_size f) 0 objectUrl f)
    /\ segments (outcome host) = segments st
    /\ selectedSegments (outcome host) = selectedSegments st
    /\ finalVideoUrl (outcome host) = finalVideoUrl st
    /\ (forall f' url' host',
          enabled (outcome host) (Upload f' url' host')).
Proof.
  cbv zeta. intros host [E|E]; subst host;
    (split; [reflexivity|]); (split; [|repeat split]);
    apply shownError_of_error;
    try reflexivity; apply message_or_nonempty, analysis_fallback_nonempty.
Qed.

Lemma failed_analysis_returns_to_idle_witness :
  let f := mkFile (js "a.mp4") 1000 (js "video/mp4") in
  let st := handleFileUpload (Some f) (js "blob:1")
              (RequestFails (Str (js "timeout"))) initialState in
  status st = IDLE /\ shownError st = Some (js "分析失败").
Proof.
  intros f st.
  destruct (failed_analysis_returns_to_idle f (js "blob:1")
              (Str (js "timeout")) initialState
              (RequestFails (Str (js "timeout"))) (or_intror eq_refl))
    as [Hs [He _]].
  split; [exact Hs | exact He].
Defined.

(** X17: an analysis that returns no segment - an empty list, or a text
    that does not parse - leaves a reachable Idle session in Ready with
    nothing to select: no segment can be added, the generate button is
    disabled, and the generate handler itself only reports an error. *)
Theorem empty_analysis_leaves_nothing_to_do (f : File)
    (objectUrl : jsstring) (parsed : option (list SubtitleSegment))
    (st : AppState)
    (Hreach : reachable st)
    (Hidle : status st = IDLE)
    (Hempty : parsed = None \/ parsed = Some []) :
  let st' := handleFileUpload (Some f) objectUrl (Responds parsed) st in
  status st' = READY
  /\ filteredSegments st' = []
  /\ selectedSegments st' = []
  /\ (forall seg, ~ enabled st' (Add seg))
  /\ (forall host, ~ enabled st' (Generate host))
  /\ (forall host,
        status (handleGenerateFinalVideo host st') = READY
        /\ shownError (handleGenerateFinalVideo host st') <> None).
Proof.
  destruct (reachable_empty_before_ready st Hreach (or_introl Hidle))
    as [_ [Hq _]].
  cbv zeta.
  assert (Hseg : segments (handleFileUpload (Some f) objectUrl
                             (Responds parsed) st) = []).
  { destruct Hempty; subst parsed; reflexivity. }
  assert (Hsel : selectedSegments (handleFileUpload (Some f) objectUrl
                                     (Responds parsed) st) = []).
  { destruct Hempty; subst parsed; exact Hq. }
  assert (Hst : status (handleFileUpload (Some f) objectUrl
                          (Responds parsed) st) = READY).
  { destruct Hempty; subst parsed; reflexivity. }
  split; [exact Hst|]. split; [unfold filteredSegments; rewrite Hseg; reflexivity|].
  split; [exact Hsel|]. split; [|split].
  - intros seg [_ Hin]. rewrite Hseg in Hin. exact Hin.
  - intros host [Hne _]. apply Hne. exact Hsel.
  - intros host. unfold handleGenerateFinalVideo. rewrite Hsel.
    split; [exact Hst|].
    rewrite shownError_set; [discriminate|]. vm_compute. discriminate.
Qed.

Lemma empty_analysis_leaves_nothing_to_do_witness :
  let f := mkFile (js "a.mp4") 1000 (js "video/mp4") in
  let st' := handleFileUpload (Some f) (js "blob:1") (Responds None)
                              initialState in
  status st' = READY /\ filteredSegments st' = [].
Proof.
  intros f st'.
  destruct (empty_analysis_leaves_nothing_to_do f (js "blob:1") None
              initialState reach_initial eq_refl (or_introl eq_refl))
    as [Hs [Hf _]].
  split; [exact Hs | exact Hf].
Defined.

(** ** The recording *)





(** X19: [handleGenerateFinalVideo] never touches the queue, the segments
    or the video, and it stores an artifact URL only when it ends in
    Completed; when a non-empty queue is not composed to the end, the
    stored URL is the one from before and no result dialog is shown, an
    earlier artifact included. *)
Theorem generation_stores_artifact_only_on_completion (host : ComposeHost)
    (st : AppState) :
  let st' := handleGenerateFinalVideo host st in
  selectedSegments st' = selectedSegments st
  /\ segments st' = segments st
  /\ video st' = video st
  /\ ((status st' = COMPLETED /\ finalVideoUrl st' = Some (blobUrl host)
       /\ selectedSegments st <> [])
      \/ (finalVideoUrl st' = finalVideoUrl st
          /\ (selectedSegments st <> [] -> shownArtifact st' = None))).
Proof.
  cbv zeta.
  destruct (handleGenerateFinalVideo_keeps host st) as [Hq [Hs Hv]].
  split; [exact Hq|]. split; [exact Hs|]. split; [exact Hv|].
  destruct (selectedSegments st) as [|s q] eqn:Hsel.
  - right. unfold handleGenerateFinalVideo. rewrite Hsel.
    split; [reflexivity | congruence].
  - assert (Hne : selectedSegments st <> []) by congruence.
    destruct (handleGenerateFinalVideo_cases host st Hne) as [_ [_ Hcase]].
    destruct (snd (composeVideoSegments _ _ _)).
    + left. repeat split; try tauto. discriminate.
    + right. split; [tauto|]. intros _. unfold shownArtifact.
      destruct Hcase as [E _]. rewrite E. reflexivity.
    + right. split; [tauto|]. intros _. unfold shownArtifact.
      destruct Hcase as [E _]. rewrite E. reflexivity.
Qed.

Lemma generation_stores_artifact_only_on_completion_witness :
  let a := mkSegment (js "1") 0 2 (js "A") false 1 in
  let f := mkFile (js "a.mp4") 1000 (js "video/mp4") in
  let st := mkApp COMPLETED
              (Some (mkVideo (js "a.mp4") 1000 0 (js "blob:1") f))
              [a] [a] [] None (Some (js "blob:2")) in
  let host := mkHost true LoadError true
                     (fun fs s => float_of_nat (length s) * fs)%float []
                     (js "blob:3") in
  shownArtifact st = Some (js "blob:2")
  /\ shownArtifact (handleGenerateFinalVideo host st) = None
  /\ finalVideoUrl (handleGenerateFinalVideo host st) = Some (js "blob:2").
Proof.
  intros a f st host. split; [reflexivity|].
  destruct (generation_stores_artifact_only_on_completion host st)
    as [_ [_ [_ [[Hc _]|[Hurl Hhidden]]]]].
  - vm_compute in Hc. discriminate Hc.
  - split; [apply Hhidden; discriminate | exact Hurl].
Defined.

(** ** The label of the generate button *)

Lemma recordingMsg_long (seg : SubtitleSegment) :
  10 < length (recordingMsg seg).
Proof.
  unfold recordingMsg. rewrite !length_app.
  assert (E : length (js "正在录制片段: ") = 8) by (vm_compute; reflexivity).
  rewrite E. simpl. lia.
Qed.

Lemma record_segment_msg_long (canvas : Canvas) (seg : SubtitleSegment)
    (r : Recording) :
  10 < length (processingMsg (app (fst (record_segment canvas seg r)))).
Proof.
  unfold record_segment.
  destruct (negb (PrimFloat.is_finite (startTime seg)));
    [apply recordingMsg_long|].
  cbn [clock]. destruct (clock r) as [|p later]; [apply recordingMsg_long|].
  destruct (renderLoop _ _ _ _ _); apply recordingMsg_long.
Qed.

Lemma record_segments_msg_long (canvas : Canvas)
    (segs : list SubtitleSegment) :
  forall r,
    10 < length (processingMsg (app r)) ->
    10 < length (processingMsg (app (fst (record_segments canvas segs r)))).
Proof.
  induction segs as [|seg rest IH]; intros r Hr; simpl; [exact Hr|].
  pose proof (record_segment_msg_long canvas seg r) as Hstep.
  destruct (record_segment canvas seg r) as [r' [[]|e|]]; simpl in Hstep |- *.
  - apply IH. exact Hstep.
  - exact Hstep.
  - exact Hstep.
Qed.

Lemma composeVideoSegments_msg_long (host : ComposeHost)
    (segs : list SubtitleSegment) (st : AppState) :
  10 < length (processingMsg st) ->
  10 < length (processingMsg (fst (composeVideoSegments host segs st))).
Proof.
  intros Hst. unfold composeVideoSegments.
  destruct (video st); [|exact Hst].
  destruct (negb (contextAvailable host)); [exact Hst|].
  destruct (mediaEvent host) as [w h| |]; try exact Hst.
  unfold onloadedmetadata.
  destruct (negb (recorderSupported host)); [exact Hst|].
  pose proof (record_segments_msg_long (mkCanvas w h (textMetrics host)) segs
                (mkRecording st [] (playbacks host)) Hst) as Hrec.
  destruct (record_segments _ _ _) as [r [[]|e|]]; exact Hrec.
Qed.

Lemma generating_msg_long (st : AppState) :
  reachable st ->
  status st = GENERATING -> 10 < length (processingMsg st).
Proof.
  induction 1 as [|st e Hreach IH Hen]; [discriminate|].
  destruct e; simpl handle; simpl in Hen.
  - destruct host as [e|e| |[l|]]; discriminate.
  - destruct host as [e|e| |[l|]]; simpl; try discriminate.
    rewrite Hen. discriminate.
  - exact IH.
  - exact IH.
  - exact IH.
  - destruct Hen as [Hne _].
    unfold handleGenerateFinalVideo.
    destruct (selectedSegments st) as [|s q] eqn:Hq; [congruence|].
    set (st1 := setProcessingMsg _ (setStatus GENERATING st)).
    assert (Hq1 : selectedSegments st1 = s :: q) by exact Hq.
    rewrite Hq1.
    assert (Hlong : 10 < length (processingMsg st1))
      by (vm_compute; lia).
    pose proof (composeVideoSegments_msg_long host (s :: q) st1 Hlong) as Hm.
    destruct (composeVideoSegments host (s :: q) st1) as [st2 [blob|err|]];
      simpl in Hm |- *; try discriminate.
    intros _. exact Hm.
  - discriminate.
  - exact IH.
Qed.

(** X20: the generate button never reads [准备中...]: whenever the session
    is Generating the progress message is longer than ten units, the
    message set before the recording included, so the label is [录制中...]
    throughout. *)
Theorem preparing_label_never_shown (st : AppState)
    (Hreach : reachable st) :
  generateLabel st <> js "准备中..."
  /\ (status st = GENERATING -> generateLabel st = js "录制中...").
Proof.
  unfold generateLabel. destruct (status st) eqn:Hs;
    try (split; [vm_compute; discriminate | discriminate]).
  pose proof (generating_msg_long st Hreach Hs) as Hlong.
  apply Nat.ltb_lt in Hlong. rewrite Hlong.
  split; [vm_compute; discriminate | reflexivity].
Qed.

Lemma preparing_label_never_shown_witness :
  let a := mkSegment (js "1") 0 2 (js "A") false 1 in
  let f := mkFile (js "a.mp4") 1000 (js "video/mp4") in
  let host := mkHost true NoEvent true
                     (fun fs s => float_of_nat (length s) * fs)%float []
                     (js "blob:2") in
  let st := handle (Generate host)
              (handle (Add a)
                 (handle (Upload f (js "blob:1") (Responds (Some [a])))
                         initialState)) in
  status st = GENERATING
  /\ processingMsg st = js "准备合成视频与音频..."
  /\ generateLabel st <> js "准备中...".
Proof.
  intros a f host st. split; [reflexivity|]. split; [reflexivity|].
  apply (preparing_label_never_shown st).
  apply reach_step.
  - apply reach_step.
    + apply reach_step; [apply reach_initial | reflexivity].
    + split; [discriminate | left; reflexivity].
  - split; discriminate.
Defined.

(** ** The payload of the data URL *)

Lemma split_char_head (sep : char16) (header : jsstring) :
  ~ In sep header ->
  forall rest,
    split_char sep (header ++ sep :: rest) = header :: split_char sep rest.
Proof.
  induction header as [|c header IH]; intros Hnot rest; simpl.
  - rewrite N.eqb_refl. reflexivity.
  - destruct (N.eqb_spec c sep) as [E|_].
    + exfalso. apply Hnot. left. exact E.
    + rewrite IH; [reflexivity|]. intros Hin. apply Hnot. right. exact Hin.
Qed.

Lemma split_char_whole (sep : char16) (s : jsstring) :
  ~ In sep s -> split_char sep s = [s].
Proof.
  induction s as [|c s IH]; intros Hnot; simpl; [reflexivity|].
  destruct (N.eqb_spec c sep) as [E|_].
  - exfalso. apply Hnot. left. exact E.
  - rewrite IH; [reflexivity|]. intros Hin. apply Hnot. right. exact Hin.
Qed.

(** X21: the data sent for analysis is what lies between the first and
    the second comma of the data URL: the whole payload when the header has
    no comma and the payload has none (base64 has none), the part of the
    payload before its first comma when it has one; a URL without a comma
    gives [undefined]. *)
Theorem inlineData_is_payload (header payload : jsstring)
    (Hheader : ~ In 44%N header) :
  (~ In 44%N payload ->
   inlineData (header ++ 44%N :: payload) = Some payload)
  /\ (forall part rest : jsstring,
        ~ In 44%N part ->
        inlineData (header ++ 44%N :: part ++ 44%N :: rest) = Some part)
  /\ inlineData header = None.
Proof.
  unfold inlineData. split; [|split].
  - intros Hp. rewrite (split_char_head 44%N header Hheader).
    rewrite (split_char_whole 44%N payload Hp). reflexivity.
  - intros part rest Hpart.
    rewrite (split_char_head 44%N header Hheader).
    rewrite (split_char_head 44%N part Hpart). reflexivity.
  - rewrite (split_char_whole 44%N header Hheader). reflexivity.
Qed.

Lemma inlineData_is_payload_witness :
  inlineData (js "data:video/mp4;base64,AAAAIGZ0eXA=")
  = Some (js "AAAAIGZ0eXA=")
  /\ inlineData (js "data:video/x,y;base64,//4s") = Some (js "y;base64").
Proof.
  split.
  - destruct (inlineData_is_payload (js "data:video/mp4;base64")
                (js "AAAAIGZ0eXA=")) as [Hp _].
    + vm_compute. intuition discriminate.
    + apply Hp. vm_compute. intuition discriminate.
  - destruct (inlineData_is_payload (js "data:video/x") []) as [_ [Hpart _]].
    + vm_compute. intuition discriminate.
    + apply (Hpart (js "y;base64") (js "//4s")).
      vm_compute. intuition discriminate.
Defined.
